(** * MapPairs OpenCL back end of the SkePU precompiler

    A shallow embedding of [createMapPairsKernelProgram_CL]
    (src/skepu-tool/mappairs_cl.cpp), of the kernel and wrapper templates it
    fills, and of the registry [UserConstants] (src/skepu-tool/skepu.cpp).
    The first part is the model; the second part states and proves the
    properties of the generated artifact. *)

From Stdlib Require Import String Ascii List Bool Arith NArith ZArith Lia.
From Stdlib Require Import Permutation Sorted DecimalString DecimalN.
Import ListNotations.

Local Open Scope string_scope.
Local Open Scope list_scope.

(** * Part I: the model *)

(** ** [std::string] and [std::stringstream] as [string]; [<<] is [+++] *)

Notation "a +++ b" := (String.append a b)
  (at level 60, right associativity) : string_scope.

Definition dquote : string := String (ascii_of_nat 34) "".
Definition newline : string := String (ascii_of_nat 10) "".

(** [size_t] streamed into a [std::stringstream]: decimal, no padding. *)
Definition size_t_to_string (n : N) : string :=
  NilEmpty.string_of_uint (N.to_uint n).

(** Text of a whole stream written piece by piece. *)
Definition str (pieces : list string) : string := String.concat "" pieces.

(** ** Metadata consumed by the generator (declared in globals.h) *)

(** Modelled from the spec: [enum class ContainerType], declared in
    globals.h.  The six kinds are those of the data model; they are also
    the six [case] labels of the [switch] in
    [createMapPairsKernelProgram_CL]. *)
Inductive ContainerType : Type :=
  | Vector | Matrix | SparseMatrix | MatRow | Tensor3 | Tensor4.

Definition ContainerType_eq_dec (a b : ContainerType) : {a = b} + {a <> b}.
Proof. decide equality. Defined.


Module UserFunction.

(** [UserFunction::Param]: the two members the generator reads. *)
Record Param : Type := mkParam {
  name : string;
  resolvedTypeName : string
}.

(** [UserFunction::RandomAccessParam] extends [Param]. *)
Record RandomAccessParam : Type := mkRandomAccessParam {
  base :> Param;
  containerType : ContainerType
}.

(** [UserFunction]: the members the generator reads.  [UserType] is the
    class of the same name, which the generator only hands on to
    [generateUserTypeCode_CL]. *)
Record t (UserType : Type) : Type := mk {
  uniqueName : string;
  resolvedReturnTypeName : string;
  indexed1D : bool;
  indexed2D : bool;
  requiresDoublePrecision : bool;
  Varity : N;
  elwiseParams : list Param;
  anyContainerParams : list RandomAccessParam;
  anyScalarParams : list Param;
  ReferencedUTs : list UserType
}.

Arguments mk {UserType}.
Arguments uniqueName {UserType}.
Arguments resolvedReturnTypeName {UserType}.
Arguments indexed1D {UserType}.
Arguments indexed2D {UserType}.
Arguments requiresDoublePrecision {UserType}.
Arguments Varity {UserType}.
Arguments elwiseParams {UserType}.
Arguments anyContainerParams {UserType}.
Arguments anyScalarParams {UserType}.
Arguments ReferencedUTs {UserType}.

End UserFunction.

Import UserFunction.

Module UserConstant.

Record t : Type := mk {
  name : string;
  definition : string;
  typeName : string
}.

End UserConstant.

(** ** [std::set<std::string>]

    An ordered set of strings: iteration is in increasing order of
    [std::string::operator<] (bytewise lexicographic), and inserting a string
    already present changes nothing. *)

Fixpoint set_insert (x : string) (s : list string) : list string :=
  match s with
  | [] => [x]
  | y :: s' =>
      match String.compare x y with
      | Lt => x :: y :: s'
      | Eq => y :: s'
      | Gt => y :: set_insert x s'
      end
  end.

(** [std::map<ContainerType, std::set<std::string>>]; [operator[]] on an
    absent key yields the empty set. *)
Definition ProxyTypeMap : Type := ContainerType -> list string.

Definition empty_map : ProxyTypeMap := fun _ => [].

Definition map_insert (m : ProxyTypeMap) (k : ContainerType) (ty : string)
  : ProxyTypeMap :=
  fun k' => if ContainerType_eq_dec k' k then set_insert ty (m k') else m k'.

(** ** Kernel and wrapper templates, lines 9-78 *)

Definition MapPairsKernelTemplate_CL : string :=
  "
__kernel void SKEPU_KERNEL_NAME(SKEPU_KERNEL_PARAMS __global SKEPU_MAP_RESULT_TYPE* output, size_t w, size_t n, size_t Vsize, size_t Hsize, size_t base)
{
	size_t i = get_global_id(0);
	size_t gridSize = get_local_size(0) * get_num_groups(0);
	SKEPU_CONTAINER_PROXIES
	
	while (i < n)
	{
		SKEPU_INDEX_INITIALIZER
		SKEPU_CONTAINER_PROXIE_INNER
		output[i] = SKEPU_FUNCTION_NAME_MAP(SKEPU_MAP_PARAMS);
		i += gridSize;
	}
}
".

Definition Constructor : string :=
  "
class SKEPU_KERNEL_CLASS
{
public:
	
	static cl_kernel kernels(size_t deviceID, cl_kernel *newkernel = nullptr)
	{
		static cl_kernel arr[8]; // Hard-coded maximum
		if (newkernel)
		{
			arr[deviceID] = *newkernel;
			return nullptr;
		}
		else return arr[deviceID];
	}
	
	static void initialize()
	{
		static bool initialized = false;
		if (initialized)
			return;
		
		std::string source = skepu::backend::cl_helpers::replaceSizeT(R"
  ++ dquote ++ "###(SKEPU_OPENCL_KERNEL)###"
  ++ dquote ++ ");
		
		// Builds the code and creates kernel for all devices
		size_t counter = 0;
		for (skepu::backend::Device_CL *device : skepu::backend::Environment<int>::getInstance()->m_devices_CL)
		{
			cl_int err;
			cl_program program = skepu::backend::cl_helpers::buildProgram(device, source);
			cl_kernel kernel = clCreateKernel(program, "
  ++ dquote ++ "SKEPU_KERNEL_NAME"
  ++ dquote ++ ", &err);
			CL_CHECK_ERROR(err, "
  ++ dquote ++ "Error creating mappairs kernel 'SKEPU_KERNEL_NAME'"
  ++ dquote ++ ");
			
			kernels(counter++, &kernel);
		}
		
		initialized = true;
	}
	
	static void map
	(
		size_t deviceID, size_t localSize, size_t globalSize,
		SKEPU_HOST_KERNEL_PARAMS skepu::backend::DeviceMemPointer_CL<SKEPU_MAP_RESULT_TYPE> *output,
		size_t w, size_t n, size_t Vsize, size_t Hsize, size_t base
	)
	{
		skepu::backend::cl_helpers::setKernelArgs(kernels(deviceID), SKEPU_KERNEL_ARGS output->getDeviceDataPointer(), w, n, Vsize, Hsize, base);
		cl_int err = clEnqueueNDRangeKernel(skepu::backend::Environment<int>::getInstance()->m_devices_CL.at(deviceID)->getQueue(), kernels(deviceID), 1, NULL, &globalSize, &localSize, 0, NULL, NULL);
		CL_CHECK_ERROR(err, "
  ++ dquote ++ "Error launching Map kernel"
  ++ dquote ++ ");
	}
};
".

(** ** Helpers declared in code_gen.h

    The generator calls helpers whose definitions live in other translation
    units.  They are taken as an interface: nothing below depends on what
    they compute. *)

Record CodeGen (UserType : Type) : Type := mkCodeGen {
  transformToCXXIdentifier : string -> string;
  generateOpenCLVectorProxy : string -> string;
  generateOpenCLMatrixProxy : string -> string;
  generateOpenCLSparseMatrixProxy : string -> string;
  generateOpenCLMatrixRowProxy : string -> string;
  generateOpenCLTensor3Proxy : string -> string;
  generateOpenCLTensor4Proxy : string -> string;
  generateUserTypeCode_CL : UserType -> string;
  generateUserFunctionCode_CL : UserFunction.t UserType -> string;
  KernelPredefinedTypes_CL : string;
  TypeNameOpenCL : UserFunction.RandomAccessParam -> string;
  TypeNameHost : UserFunction.RandomAccessParam -> string
}.

Arguments transformToCXXIdentifier {UserType}.
Arguments generateOpenCLVectorProxy {UserType}.
Arguments generateOpenCLMatrixProxy {UserType}.
Arguments generateOpenCLSparseMatrixProxy {UserType}.
Arguments generateOpenCLMatrixRowProxy {UserType}.
Arguments generateOpenCLTensor3Proxy {UserType}.
Arguments generateOpenCLTensor4Proxy {UserType}.
Arguments generateUserTypeCode_CL {UserType}.
Arguments generateUserFunctionCode_CL {UserType}.
Arguments KernelPredefinedTypes_CL {UserType}.
Arguments TypeNameOpenCL {UserType}.
Arguments TypeNameHost {UserType}.

(** Modelled from the spec: the placeholder constants [PH_KernelName],
    [PH_KernelParams], [PH_MapResultType], [PH_MapFuncName], [PH_MapParams]
    and [PH_IndexInitializer], declared in code_gen.h; their values are the
    slot names that occur in the two templates above. *)
Definition PH_KernelName : string := "SKEPU_KERNEL_NAME".
Definition PH_KernelParams : string := "SKEPU_KERNEL_PARAMS".
Definition PH_MapResultType : string := "SKEPU_MAP_RESULT_TYPE".
Definition PH_MapFuncName : string := "SKEPU_FUNCTION_NAME_MAP".
Definition PH_MapParams : string := "SKEPU_MAP_PARAMS".
Definition PH_IndexInitializer : string := "SKEPU_INDEX_INITIALIZER".

(** Modelled from the spec: [replaceTextInString], defined in another
    translation unit; it is the sequential whole-string substitution of the
    design notes: every occurrence of [find], scanning left to right and
    resuming after the inserted text, is replaced by [replace].  [skip]
    counts the characters of a match still to be erased; [find] is one of
    the slot names, never empty. *)
Fixpoint replaceFrom (find replace text : string) (skip : nat) : string :=
  match text with
  | EmptyString => EmptyString
  | String c rest =>
      match skip with
      | S k => replaceFrom find replace rest k
      | O =>
          if String.prefix find text
          then replace +++ replaceFrom find replace rest (String.length find - 1)
          else String c (replaceFrom find replace rest 0)
      end
  end.

Definition replaceTextInString (text find replace : string) : string :=
  replaceFrom find replace text 0.

(** ** The generator: [createMapPairsKernelProgram_CL]

    The local string streams, [indexInitializer], [containerProxyTypes], the
    flag [first] and the counter [ctr] form the state threaded through the
    three parameter loops. *)

Record Streams : Type := mkStreams {
  SSMapFuncParams : string;
  SSKernelParamList : string;
  SSHostKernelParamList : string;
  SSKernelArgs : string;
  SSProxyInitializer : string;
  SSProxyInitializerInner : string;
  indexInitializer : string;
  containerProxyTypes : ProxyTypeMap;
  first : bool;
  ctr : N
}.

Definition initial_streams : Streams :=
  mkStreams "" "" "" "" "" "" "" empty_map true 0%N.

Definition out_MapFuncParams (s : string) (st : Streams) : Streams :=
  mkStreams (SSMapFuncParams st +++ s) (SSKernelParamList st)
    (SSHostKernelParamList st) (SSKernelArgs st) (SSProxyInitializer st)
    (SSProxyInitializerInner st) (indexInitializer st)
    (containerProxyTypes st) (first st) (ctr st).

Definition out_KernelParamList (s : string) (st : Streams) : Streams :=
  mkStreams (SSMapFuncParams st) (SSKernelParamList st +++ s)
    (SSHostKernelParamList st) (SSKernelArgs st) (SSProxyInitializer st)
    (SSProxyInitializerInner st) (indexInitializer st)
    (containerProxyTypes st) (first st) (ctr st).

Definition out_HostKernelParamList (s : string) (st : Streams) : Streams :=
  mkStreams (SSMapFuncParams st) (SSKernelParamList st)
    (SSHostKernelParamList st +++ s) (SSKernelArgs st) (SSProxyInitializer st)
    (SSProxyInitializerInner st) (indexInitializer st)
    (containerProxyTypes st) (first st) (ctr st).

Definition out_KernelArgs (s : string) (st : Streams) : Streams :=
  mkStreams (SSMapFuncParams st) (SSKernelParamList st)
    (SSHostKernelParamList st) (SSKernelArgs st +++ s) (SSProxyInitializer st)
    (SSProxyInitializerInner st) (indexInitializer st)
    (containerProxyTypes st) (first st) (ctr st).

Definition out_ProxyInitializer (s : string) (st : Streams) : Streams :=
  mkStreams (SSMapFuncParams st) (SSKernelParamList st)
    (SSHostKernelParamList st) (SSKernelArgs st) (SSProxyInitializer st +++ s)
    (SSProxyInitializerInner st) (indexInitializer st)
    (containerProxyTypes st) (first st) (ctr st).

Definition out_ProxyInitializerInner (s : string) (st : Streams) : Streams :=
  mkStreams (SSMapFuncParams st) (SSKernelParamList st)
    (SSHostKernelParamList st) (SSKernelArgs st) (SSProxyInitializer st)
    (SSProxyInitializerInner st +++ s) (indexInitializer st)
    (containerProxyTypes st) (first st) (ctr st).

Definition set_indexInitializer (s : string) (st : Streams) : Streams :=
  mkStreams (SSMapFuncParams st) (SSKernelParamList st)
    (SSHostKernelParamList st) (SSKernelArgs st) (SSProxyInitializer st)
    (SSProxyInitializerInner st) s
    (containerProxyTypes st) (first st) (ctr st).

Definition insert_proxy_type (k : ContainerType) (ty : string) (st : Streams)
  : Streams :=
  mkStreams (SSMapFuncParams st) (SSKernelParamList st)
    (SSHostKernelParamList st) (SSKernelArgs st) (SSProxyInitializer st)
    (SSProxyInitializerInner st) (indexInitializer st)
    (map_insert (containerProxyTypes st) k ty) (first st) (ctr st).

Definition set_first (b : bool) (st : Streams) : Streams :=
  mkStreams (SSMapFuncParams st) (SSKernelParamList st)
    (SSHostKernelParamList st) (SSKernelArgs st) (SSProxyInitializer st)
    (SSProxyInitializerInner st) (indexInitializer st)
    (containerProxyTypes st) b (ctr st).

Definition incr_ctr (st : Streams) : Streams :=
  mkStreams (SSMapFuncParams st) (SSKernelParamList st)
    (SSHostKernelParamList st) (SSKernelArgs st) (SSProxyInitializer st)
    (SSProxyInitializerInner st) (indexInitializer st)
    (containerProxyTypes st) (first st) (ctr st + 1)%N.

(** [if (!first) { SSMapFuncParams << ", "; }] *)
Definition separator (st : Streams) : Streams :=
  if negb (first st) then out_MapFuncParams ", " st else st.

Definition index1_initializer : string :=
  "index1_t index = { .i = base + i };".
Definition index2_initializer : string :=
  "index2_t index = { .row = (base + i) / w, .col = (base + i) % w };".

(** Address of a [clang::VarDecl], the key of the registry [UserConstants]. *)
Definition VarDecl : Type := N.

(** ** The files of the host

    [std::ofstream FSOutFile {path}] opens the file at [path] for writing,
    creating it or emptying it; when the file cannot be opened the stream
    is in a failed state and [FSOutFile << text] writes nothing.  A file is
    identified by its path, and a write that starts is taken to complete. *)
Record FileSystem : Type := mkFileSystem {
  can_open : string -> bool;
  contents : string -> option string
}.

Definition ofstream_write (fs : FileSystem) (path text : string)
  : FileSystem :=
  if can_open fs path
  then mkFileSystem (can_open fs)
         (fun p => if String.eqb p path then Some text else contents fs p)
  else fs.

Section Generator.

Context {UserType : Type}.
Variable cg : CodeGen UserType.

(** Lines 88-99. *)
Definition index_step (mapFunc : UserFunction.t UserType) (st : Streams)
  : Streams :=
  if indexed1D mapFunc then
    set_first false
      (set_indexInitializer index1_initializer
         (out_MapFuncParams "index" st))
  else if indexed2D mapFunc then
    set_first false
      (set_indexInitializer index2_initializer
         (out_MapFuncParams "index" st))
  else st.

(** Body of the loop over [mapFunc.elwiseParams], lines 104-112. *)
Definition elwise_step (mapFunc : UserFunction.t UserType) (st : Streams)
  (param : Param) : Streams :=
  let st := separator st in
  let st := out_KernelParamList
    (str ["__global "; resolvedTypeName param; " *"; name param; ", "]) st in
  let st := out_HostKernelParamList
    (str ["skepu::backend::DeviceMemPointer_CL<"; resolvedTypeName param;
          "> *"; name param; ", "]) st in
  let st := out_KernelArgs (str [name param; "->getDeviceDataPointer(), "]) st in
  let vertical := (ctr st <? Varity mapFunc)%N in
  let st := incr_ctr st in
  let st :=
    if vertical
    then out_MapFuncParams (str [name param; "[i / Hsize]"]) st
    else out_MapFuncParams (str [name param; "[i % Hsize]"]) st in
  set_first false st.

(** The [switch] on [param.containerType], lines 121-179; [name] is the
    local [std::string name = "skepu_container_" + param.name]. *)
Definition container_case (param : RandomAccessParam) (name : string)
  (st : Streams) : Streams :=
  let pname := UserFunction.name param in
  let ptype := resolvedTypeName param in
  match containerType param with
  | Vector =>
      let st := out_KernelParamList
        (str ["__global "; ptype; " *"; name; ", size_t skepu_size_"; pname;
              ", "]) st in
      let st := out_KernelArgs
        (str ["std::get<1>("; name;
              ")->getDeviceDataPointer(), std::get<0>("; name;
              ")->size(), "]) st in
      out_ProxyInitializer
        (str [TypeNameOpenCL cg param; " "; pname; " = { .data = "; name;
              ", .size = skepu_size_"; pname; " };"; newline]) st
  | Matrix =>
      let st := out_KernelParamList
        (str ["__global "; ptype; " *"; name; ", size_t skepu_rows_"; pname;
              ", size_t skepu_cols_"; pname; ", "]) st in
      let st := out_KernelArgs
        (str ["std::get<1>("; name;
              ")->getDeviceDataPointer(), std::get<0>("; name;
              ")->total_rows(), std::get<0>("; name;
              ")->total_cols(), "]) st in
      out_ProxyInitializer
        (str [TypeNameOpenCL cg param; " "; pname; " = { .data = "; name;
              ", .rows = skepu_rows_"; pname; ", .cols = skepu_cols_"; pname;
              " };"; newline]) st
  | MatRow =>
      let st := out_KernelParamList
        (str ["__global "; ptype; " *"; name; ", size_t skepu_cols_"; pname;
              ", "]) st in
      let st := out_KernelArgs
        (str ["std::get<1>("; name;
              ")->getDeviceDataPointer(), std::get<0>("; name;
              ")->total_cols(), "]) st in
      out_ProxyInitializerInner
        (str [TypeNameOpenCL cg param; " "; pname; " = { .data = ("; name;
              " + i * skepu_cols_"; pname; "), .cols = skepu_cols_"; pname;
              " };"; newline]) st
  | Tensor3 =>
      let st := out_KernelParamList
        (str ["__global "; ptype; " *"; name; ", ";
              "size_t skepu_size_i_"; pname; ", size_t skepu_size_j_"; pname;
              ", size_t skepu_size_k_"; pname; ", "]) st in
      let st := out_KernelArgs
        (str ["std::get<1>("; name; ")->getDeviceDataPointer(), ";
              "std::get<0>("; name; ")->size_i(), std::get<0>("; name;
              ")->size_j(), std::get<0>("; name; ")->size_k(), "]) st in
      out_ProxyInitializer
        (str [TypeNameOpenCL cg param; " "; pname; " = { .data = "; name;
              ", .size_i = skepu_size_i_"; pname;
              ", .size_j = skepu_size_j_"; pname;
              ", .size_k = skepu_size_k_"; pname; " };"; newline]) st
  | Tensor4 =>
      let st := out_KernelParamList
        (str ["__global "; ptype; " *"; name; ", ";
              "size_t skepu_size_i_"; pname; ", size_t skepu_size_j_"; pname;
              ", size_t skepu_size_k_"; pname; ", size_t skepu_size_l_";
              pname; ", "]) st in
      let st := out_KernelArgs
        (str ["std::get<1>("; name; ")->getDeviceDataPointer(), ";
              "std::get<0>("; name; ")->size_i(), std::get<0>("; name;
              ")->size_j(), std::get<0>("; name; ")->size_k(), std::get<0>(";
              name; ")->size_l(), "]) st in
      out_ProxyInitializer
        (str [TypeNameOpenCL cg param; " "; pname; " = { .data = "; name;
              ", .size_i = skepu_size_i_"; pname;
              ", .size_j = skepu_size_j_"; pname;
              ", .size_k = skepu_size_k_"; pname;
              ", .size_l = skepu_size_l_"; pname; " };"; newline]) st
  | SparseMatrix =>
      let st := out_KernelParamList
        (str ["__global "; ptype; " *"; name; ", ";
              "__global size_t *"; pname; "_row_pointers, ";
              "__global size_t *"; pname; "_col_indices, ";
              "size_t skepu_size_"; pname; ", "]) st in
      let st := out_KernelArgs
        (str ["std::get<1>("; name; ")->getDeviceDataPointer(), ";
              "std::get<2>("; name; ")->getDeviceDataPointer(), ";
              "std::get<3>("; name; ")->getDeviceDataPointer(), ";
              "std::get<0>("; name; ")->total_nnz(), "]) st in
      out_ProxyInitializer
        (str [TypeNameOpenCL cg param; " "; pname; " = { ";
              ".data = "; name; ", ";
              ".row_offsets = "; pname; "_row_pointers, ";
              ".col_indices = "; pname; "_col_indices, ";
              ".count = skepu_size_"; pname; " };"; newline]) st
  end.

(** Body of the loop over [mapFunc.anyContainerParams], lines 117-181. *)
Definition container_step (st : Streams) (param : RandomAccessParam)
  : Streams :=
  let name := "skepu_container_" +++ UserFunction.name param in
  let st := separator st in
  let st := out_HostKernelParamList
    (str [TypeNameHost cg param; " skepu_container_";
          UserFunction.name param; ", "]) st in
  let st := insert_proxy_type (containerType param)
              (resolvedTypeName param) st in
  let st := container_case param name st in
  let st := out_MapFuncParams (UserFunction.name param) st in
  set_first false st.

(** Body of the loop over [mapFunc.anyScalarParams], lines 186-191. *)
Definition scalar_step (st : Streams) (param : Param) : Streams :=
  let st := separator st in
  let st := out_KernelParamList
    (str [resolvedTypeName param; " "; name param; ", "]) st in
  let st := out_HostKernelParamList
    (str [resolvedTypeName param; " "; name param; ", "]) st in
  let st := out_KernelArgs (str [name param; ", "]) st in
  let st := out_MapFuncParams (name param) st in
  set_first false st.

(** Lines 83-192: the state after the three loops. *)
Definition collect (mapFunc : UserFunction.t UserType) : Streams :=
  let st := index_step mapFunc initial_streams in
  let st := fold_left (elwise_step mapFunc) (elwiseParams mapFunc) st in
  let st := fold_left container_step (anyContainerParams mapFunc) st in
  fold_left scalar_step (anyScalarParams mapFunc) st.

(** *** The kernel source, lines 194-229

    [sourceStream] receives, in this order, the pieces below; each
    constructor names one [<<] of the source. *)
Inductive Fragment : Type :=
  | FPragma
  | FProxy (kind : ContainerType) (type : string)
  | FDefine (c : UserConstant.t)
  | FUserType (t : UserType)
  | FPredefinedTypes
  | FUserFunction (f : UserFunction.t UserType)
  | FKernelTemplate.

Definition pragma_fp64 : string :=
  "#pragma OPENCL EXTENSION cl_khr_fp64: enable" +++ newline.

Definition define_line (c : UserConstant.t) : string :=
  str ["#define "; UserConstant.name c; " ("; UserConstant.definition c;
       ") // "; UserConstant.typeName c; newline].

Definition generateProxy (kind : ContainerType) : string -> string :=
  match kind with
  | Vector => generateOpenCLVectorProxy cg
  | Matrix => generateOpenCLMatrixProxy cg
  | SparseMatrix => generateOpenCLSparseMatrixProxy cg
  | MatRow => generateOpenCLMatrixRowProxy cg
  | Tensor3 => generateOpenCLTensor3Proxy cg
  | Tensor4 => generateOpenCLTensor4Proxy cg
  end.

Definition render (fr : Fragment) : string :=
  match fr with
  | FPragma => pragma_fp64
  | FProxy kind type => generateProxy kind type
  | FDefine c => define_line c
  | FUserType t => generateUserTypeCode_CL cg t
  | FPredefinedTypes => KernelPredefinedTypes_CL cg
  | FUserFunction f => generateUserFunctionCode_CL cg f
  | FKernelTemplate => MapPairsKernelTemplate_CL
  end.

(** The six loops over [containerProxyTypes], in the order of the source. *)
Definition proxy_fragments (types : ProxyTypeMap) : list Fragment :=
  map (FProxy Vector) (types Vector)
  ++ map (FProxy Matrix) (types Matrix)
  ++ map (FProxy SparseMatrix) (types SparseMatrix)
  ++ map (FProxy MatRow) (types MatRow)
  ++ map (FProxy Tensor3) (types Tensor3)
  ++ map (FProxy Tensor4) (types Tensor4).

(** [UserConstants] is given as the sequence of pairs that the range-for
    over the registry visits. *)
Definition source_fragments
  (UserConstants : list (VarDecl * UserConstant.t))
  (mapFunc : UserFunction.t UserType) : list Fragment :=
  (if requiresDoublePrecision mapFunc then [FPragma] else [])
  ++ proxy_fragments (containerProxyTypes (collect mapFunc))
  ++ map (fun pair => FDefine (snd pair)) UserConstants
  ++ map FUserType (ReferencedUTs mapFunc)
  ++ [FPredefinedTypes; FUserFunction mapFunc; FKernelTemplate].

Definition sourceStream
  (UserConstants : list (VarDecl * UserConstant.t))
  (mapFunc : UserFunction.t UserType) : string :=
  str (map render (source_fragments UserConstants mapFunc)).

(** *** Names, lines 224-227 *)
Definition kernelName (ResultName : string)
  (mapFunc : UserFunction.t UserType) (Varity Harity : N) : string :=
  str [transformToCXXIdentifier cg ResultName; "_MapPairsKernel_";
       uniqueName mapFunc; "_Varity_"; size_t_to_string Varity;
       "_Harity_"; size_t_to_string Harity].

Definition className (kernelName : string) : string :=
  "CLWrapperClass_" +++ kernelName.

(** *** Assembly of the artifact, lines 231-248 *)
Definition finalSource (ResultName : string)
  (UserConstants : list (VarDecl * UserConstant.t))
  (mapFunc : UserFunction.t UserType) (Varity Harity : N) : string :=
  let st := collect mapFunc in
  let kernelName := kernelName ResultName mapFunc Varity Harity in
  let s := Constructor in
  let s := replaceTextInString s "SKEPU_OPENCL_KERNEL"
             (sourceStream UserConstants mapFunc) in
  let s := replaceTextInString s PH_MapResultType
             (resolvedReturnTypeName mapFunc) in
  let s := replaceTextInString s PH_KernelName kernelName in
  let s := replaceTextInString s PH_MapFuncName (uniqueName mapFunc) in
  let s := replaceTextInString s PH_KernelParams (SSKernelParamList st) in
  let s := replaceTextInString s "SKEPU_HOST_KERNEL_PARAMS"
             (SSHostKernelParamList st) in
  let s := replaceTextInString s PH_MapParams (SSMapFuncParams st) in
  let s := replaceTextInString s PH_IndexInitializer (indexInitializer st) in
  let s := replaceTextInString s "SKEPU_KERNEL_CLASS"
             (className kernelName) in
  let s := replaceTextInString s "SKEPU_KERNEL_ARGS" (SSKernelArgs st) in
  let s := replaceTextInString s "SKEPU_CONTAINER_PROXIES"
             (SSProxyInitializer st) in
  replaceTextInString s "SKEPU_CONTAINER_PROXIE_INNER"
    (SSProxyInitializerInner st).

(** Lines 245-248: the artifact is written to a file named after the
    kernel and the kernel name is returned.  The stream is not tested. *)
Definition outputPath (dir kernelName : string) : string :=
  str [dir; "/"; kernelName; "_cl_source.inl"].

Definition createMapPairsKernelProgram_CL (ResultName : string)
  (UserConstants : list (VarDecl * UserConstant.t))
  (mapFunc : UserFunction.t UserType) (Varity Harity : N) (dir : string)
  (fs : FileSystem) : string * FileSystem :=
  let kernelName := kernelName ResultName mapFunc Varity Harity in
  let fs := ofstream_write fs (outputPath dir kernelName)
              (finalSource ResultName UserConstants mapFunc Varity Harity) in
  (kernelName, fs).

End Generator.

(** ** The claims in the vocabulary of the specification *)

(** *** The argument list of the call to the user function *)

(** The elementwise accesses, following the wording of the specification:
    the parameter at position [k] is read at [i / Hsize] when [k] is among
    the first [Varity] positions and at [i % Hsize] otherwise. *)
Fixpoint elwise_accesses (Varity k : N) (ps : list UserFunction.Param)
  : list string :=
  match ps with
  | [] => []
  | p :: ps' =>
      (name p +++ (if (k <? Varity)%N then "[i / Hsize]" else "[i % Hsize]"))
      :: elwise_accesses Varity (k + 1) ps'
  end.

Definition call_arguments {UserType} (mapFunc : UserFunction.t UserType)
  : list string :=
  (if indexed1D mapFunc || indexed2D mapFunc then ["index"] else [])
  ++ elwise_accesses (Varity mapFunc) 0 (elwiseParams mapFunc)
  ++ map (fun p : UserFunction.RandomAccessParam => name p)
       (anyContainerParams mapFunc)
  ++ map name (anyScalarParams mapFunc).

(** *** Proxy definitions and their keys *)

Definition ProxyTypeKey : Type := ContainerType * string.

Definition proxy_key (p : UserFunction.RandomAccessParam) : ProxyTypeKey :=
  (containerType p, resolvedTypeName p).


(** The keys of the proxy definitions written to [sourceStream], in order. *)
Definition emitted_proxy_keys {UserType} (frs : list (@Fragment UserType))
  : list ProxyTypeKey :=
  flat_map (fun fr => match fr with
                      | FProxy kind type => [(kind, type)]
                      | _ => []
                      end) frs.

Definition all_kinds : list ContainerType :=
  [Vector; Matrix; SparseMatrix; MatRow; Tensor3; Tensor4].

(** *** The kernel template cut at its two proxy slots *)




(** Number of positions of [text] at which [find] occurs. *)
Fixpoint occurrences (find text : string) : nat :=
  match text with
  | EmptyString => 0
  | String _ rest =>
      (if String.prefix find text then 1 else 0) + occurrences find rest
  end.


(** The initializer of one proxy, by kind, as the specification lists the
    fields: the row proxy points [i] rows into the data, the others at the
    start of the data. *)
Definition proxy_initializer {UserType} (cg : CodeGen UserType)
  (p : UserFunction.RandomAccessParam) : string :=
  let raw := "skepu_container_" +++ name p in
  match containerType p with
  | Vector =>
      str [TypeNameOpenCL cg p; " "; name p; " = { .data = "; raw;
           ", .size = skepu_size_"; name p; " };"; newline]
  | Matrix =>
      str [TypeNameOpenCL cg p; " "; name p; " = { .data = "; raw;
           ", .rows = skepu_rows_"; name p; ", .cols = skepu_cols_"; name p;
           " };"; newline]
  | SparseMatrix =>
      str [TypeNameOpenCL cg p; " "; name p; " = { .data = "; raw;
           ", .row_offsets = "; name p; "_row_pointers, .col_indices = ";
           name p; "_col_indices, .count = skepu_size_"; name p; " };";
           newline]
  | MatRow =>
      str [TypeNameOpenCL cg p; " "; name p; " = { .data = ("; raw;
           " + i * skepu_cols_"; name p; "), .cols = skepu_cols_"; name p;
           " };"; newline]
  | Tensor3 =>
      str [TypeNameOpenCL cg p; " "; name p; " = { .data = "; raw;
           ", .size_i = skepu_size_i_"; name p; ", .size_j = skepu_size_j_";
           name p; ", .size_k = skepu_size_k_"; name p; " };"; newline]
  | Tensor4 =>
      str [TypeNameOpenCL cg p; " "; name p; " = { .data = "; raw;
           ", .size_i = skepu_size_i_"; name p; ", .size_j = skepu_size_j_";
           name p; ", .size_k = skepu_size_k_"; name p;
           ", .size_l = skepu_size_l_"; name p; " };"; newline]
  end.

(** *** The text of the kernel source, piece by piece *)

Section SourcePieces.

Context {UserType : Type}.
Variable cg : CodeGen UserType.

(** The text of the six proxy loops. *)
Definition proxy_definitions (types : ProxyTypeMap) : string :=
  str (map (render cg) (proxy_fragments types)).

Definition constant_definitions
  (UserConstants : list (VarDecl * UserConstant.t)) : string :=
  str (map (fun pair => define_line (snd pair)) UserConstants).

Definition user_type_definitions (uts : list UserType) : string :=
  str (map (generateUserTypeCode_CL cg) uts).

End SourcePieces.

(** *** The registry of user constants

    [UserConstants] is a [std::unordered_map] keyed by the address of the
    declaration (skepu.cpp, line 46).  Such a table stores its elements by
    the hash of the key: a range-for visits every stored element once, in an
    order that the library fixes and that the order of insertion does not
    determine.  A traversal is therefore any rearrangement of the entries. *)

Definition Registry : Type := list (VarDecl * UserConstant.t).

Definition Traversal : Type := Registry -> Registry.

Definition traversal_ok (visit : Traversal) : Prop :=
  forall entries : Registry, Permutation (visit entries) entries.

(** The constants defined in the kernel source, in the order of their
    [#define] lines. *)
Definition emitted_constants {UserType} (frs : list (@Fragment UserType))
  : list UserConstant.t :=
  flat_map (fun fr => match fr with
                      | FDefine c => [c]
                      | _ => []
                      end) frs.

(** *** The index initializer

    The initializer is a line of OpenCL C.  To say what it computes, the
    expressions it is made of are given a syntax, a printer that yields the
    text of the generator, and an evaluation on [size_t] values. *)

Inductive CExpr : Type :=
  | EVar (x : string)
  | EAdd (a b : CExpr)
  | EDiv (a b : CExpr)
  | EMod (a b : CExpr).

Fixpoint print_expr (e : CExpr) : string :=
  let operand (e' : CExpr) (s : string) : string :=
    match e' with
    | EVar _ => s
    | _ => str ["("; s; ")"]
    end in
  match e with
  | EVar x => x
  | EAdd a b => str [print_expr a; " + "; print_expr b]
  | EDiv a b =>
      str [operand a (print_expr a); " / "; operand b (print_expr b)]
  | EMod a b =>
      str [operand a (print_expr a); " % "; operand b (print_expr b)]
  end.

(** A declaration [type index = { .f1 = e1, .f2 = e2 };]. *)
Record IndexDecl : Type := mkIndexDecl {
  index_type : string;
  index_fields : list (string * CExpr)
}.

Definition print_decl (d : IndexDecl) : string :=
  str [index_type d; " index = { ";
       String.concat ", "
         (map (fun fe => str ["."; fst fe; " = "; print_expr (snd fe)])
            (index_fields d));
       " };"].

Definition index1_decl : IndexDecl :=
  mkIndexDecl "index1_t" [("i", EAdd (EVar "base") (EVar "i"))].

Definition index2_decl : IndexDecl :=
  mkIndexDecl "index2_t"
    [("row", EDiv (EAdd (EVar "base") (EVar "i")) (EVar "w"));
     ("col", EMod (EAdd (EVar "base") (EVar "i")) (EVar "w"))].

(** [size_t] of the kernel: unsigned, 64 bits, arithmetic modulo [2^64];
    division by zero has no value. *)
Definition size_t_modulus : Z := 2 ^ 64.

Definition is_size_t (z : Z) : Prop := (0 <= z < size_t_modulus)%Z.

Fixpoint eval_expr (env : string -> Z) (e : CExpr) : option Z :=
  match e with
  | EVar x => Some (env x)
  | EAdd a b =>
      match eval_expr env a, eval_expr env b with
      | Some x, Some y => Some ((x + y) mod size_t_modulus)%Z
      | _, _ => None
      end
  | EDiv a b =>
      match eval_expr env a, eval_expr env b with
      | Some x, Some y => if (y =? 0)%Z then None else Some (x / y)%Z
      | _, _ => None
      end
  | EMod a b =>
      match eval_expr env a, eval_expr env b with
      | Some x, Some y => if (y =? 0)%Z then None else Some (x mod y)%Z
      | _, _ => None
      end
  end.

Fixpoint eval_fields (env : string -> Z) (fs : list (string * CExpr))
  : option (list (string * Z)) :=
  match fs with
  | [] => Some []
  | (f, e) :: fs' =>
      match eval_expr env e, eval_fields env fs' with
      | Some v, Some vs => Some ((f, v) :: vs)
      | _, _ => None
      end
  end.

(** The variables in scope at the initializer: the kernel arguments [w] and
    [base] and the loop index [i]. *)
Definition kernel_env (w base i : Z) : string -> Z :=
  fun x =>
    if (x =? "w")%string then w
    else if (x =? "base")%string then base
    else if (x =? "i")%string then i
    else 0%Z.

(** *** The grid-stride loop of the kernel

    One worker of the kernel template:
    [size_t i = get_global_id(0); while (i < n) { ...; i += gridSize; }].
    The indices are [size_t] values, so [i += gridSize] wraps at the modulus
    of the type.  The loop is run with fuel; it returns the indices at which
    the body ran, in order. *)

Section GridStride.

(** The modulus of [size_t]: [2^64] on the hosts the tool targets. *)
Variable modulus : Z.
Variables n gridSize : Z.

Fixpoint worker_loop (fuel : nat) (i : Z) : option (list Z) :=
  match fuel with
  | O => None
  | S fuel' =>
      if (i <? n)%Z
      then option_map (cons i)
             (worker_loop fuel' ((i + gridSize) mod modulus)%Z)
      else Some []
  end.

(** Worker [g] terminates after running the body at the indices [l]. *)
Definition visits (g : Z) (l : list Z) : Prop :=
  exists fuel, worker_loop fuel g = Some l.

(** Every worker terminates without running the body twice at one index,
    no body runs outside [0, n), and every index in [0, n) belongs to
    exactly one worker. *)
Definition covers_exactly_once : Prop :=
  (forall g, (0 <= g < gridSize)%Z ->
     exists l, visits g l /\ NoDup l
               /\ forall i, In i l -> (0 <= i < n)%Z)
  /\ (forall i, (0 <= i < n)%Z ->
        exists g, (0 <= g < gridSize)%Z
                  /\ (exists l, visits g l /\ In i l)
                  /\ forall g', (0 <= g' < gridSize)%Z ->
                       (exists l', visits g' l' /\ In i l') -> g' = g).

End GridStride.

(** *** The generated wrapper class at run time

    [kernels] and [initialize] of the wrapper template, with their function
    statics made explicit: the table [arr] of eight kernel handles and the
    flag [initialized]. *)

Module Wrapper.

(** A kernel handle is a pointer; the statics start zeroed. *)
Definition cl_kernel : Type := Z.
Definition nullptr : cl_kernel := 0%Z.
Definition CL_SUCCESS : Z := 0%Z.

(** [static cl_kernel arr[8]; // Hard-coded maximum] *)
Definition capacity : nat := 8.

Record Statics : Type := mkStatics {
  arr : list cl_kernel;
  initialized : bool
}.

Definition at_program_start : Statics :=
  mkStatics (repeat nullptr capacity) false.

(** Outcome of a call: it returns, or it indexes [arr] outside the array,
    or the error check stops the run. *)
Inductive Outcome (A : Type) : Type :=
  | Returns (a : A)
  | OutOfBounds
  | Stopped.
Arguments Returns {A}.
Arguments OutOfBounds {A}.
Arguments Stopped {A}.

Fixpoint store (l : list cl_kernel) (k : nat) (v : cl_kernel)
  : list cl_kernel :=
  match l, k with
  | [], _ => []
  | _ :: l', O => v :: l'
  | x :: l', S k' => x :: store l' k' v
  end.

(** [kernels(deviceID, newkernel)]: no test on [deviceID] precedes either
    access to [arr]. *)
Definition kernels (st : Statics) (deviceID : nat)
  (newkernel : option cl_kernel) : Outcome (Statics * cl_kernel) :=
  match newkernel with
  | Some k =>
      if (deviceID <? capacity)%nat
      then Returns (mkStatics (store (arr st) deviceID k) (initialized st),
                    nullptr)
      else OutOfBounds
  | None =>
      if (deviceID <? capacity)%nat
      then Returns (st, nth deviceID (arr st) nullptr)
      else OutOfBounds
  end.

Section Runtime.

(** The OpenCL runtime and the helpers of the SkePU back end. *)
Variables Device cl_program : Type.
Variable buildProgram : Device -> string -> cl_program.
Variable clCreateKernel : cl_program -> string -> cl_kernel * Z.

(** Modelled from the spec: the macro [CL_CHECK_ERROR], defined in the
    SkePU run-time headers; a failure to build a kernel is fatal for the
    run, so control passes the check only on [CL_SUCCESS]. *)
Definition CL_CHECK_ERROR (err : Z) : bool := (err =? CL_SUCCESS)%Z.

Variable source : string.
Variable kernel_name : string.

(** The kernel created for one device and its error code. *)
Definition create (device : Device) : cl_kernel * Z :=
  clCreateKernel (buildProgram device source) kernel_name.

(** The loop over [m_devices_CL], lines 53-61. *)
Fixpoint build_all (devices : list Device) (counter : nat) (st : Statics)
  : Outcome Statics :=
  match devices with
  | [] => Returns st
  | device :: rest =>
      let (kernel, err) := create device in
      if CL_CHECK_ERROR err then
        match kernels st counter (Some kernel) with
        | Returns (st', _) => build_all rest (S counter) st'
        | OutOfBounds => OutOfBounds
        | Stopped => Stopped
        end
      else Stopped
  end.

(** [initialize()], lines 43-64. *)
Definition initialize (m_devices_CL : list Device) (st : Statics)
  : Outcome Statics :=
  if initialized st then Returns st
  else
    match build_all m_devices_CL 0 st with
    | Returns st' => Returns (mkStatics (arr st') true)
    | OutOfBounds => OutOfBounds
    | Stopped => Stopped
    end.

Definition builds (device : Device) : Prop :=
  snd (create device) = CL_SUCCESS.

End Runtime.

Arguments create {Device cl_program}.
Arguments build_all {Device cl_program}.
Arguments initialize {Device cl_program}.
Arguments builds {Device cl_program}.

End Wrapper.

(** ** Invariants of the parameter loops *)

(** What the loops maintain: the stream holds the arguments emitted so far,
    comma separated, and [first] tells whether there is none yet. *)
Definition args_inv (st : Streams) (done : list string) : Prop :=
  SSMapFuncParams st = String.concat ", " done
  /\ first st = match done with [] => true | _ :: _ => false end.

Definition string_lt (a b : string) : Prop := String.compare a b = Lt.

(** Every set is ordered and holds exactly the element types of the
    container parameters of its kind seen so far. *)
Definition types_inv (m : ProxyTypeMap)
  (seen : list UserFunction.RandomAccessParam) : Prop :=
  forall k, StronglySorted string_lt (m k)
            /\ forall t, In t (m k) <-> In (k, t) (map proxy_key seen).

Definition is_digit (c : ascii) : bool :=
  ((48 <=? nat_of_ascii c)%nat && (nat_of_ascii c <=? 57)%nat)%bool.

(** ** Example inputs *)

(** A concrete instance of the helper interface, to run the generator on
    examples: the base name is kept as it is and every generated block is a
    comment naming what it stands for. *)
Definition example_codegen : CodeGen unit :=
  mkCodeGen unit
    (fun s => s)
    (fun t => str ["/* vector proxy "; t; " */"; newline])
    (fun t => str ["/* matrix proxy "; t; " */"; newline])
    (fun t => str ["/* sparse matrix proxy "; t; " */"; newline])
    (fun t => str ["/* matrix row proxy "; t; " */"; newline])
    (fun t => str ["/* tensor3 proxy "; t; " */"; newline])
    (fun t => str ["/* tensor4 proxy "; t; " */"; newline])
    (fun _ => str ["/* user type */"; newline])
    (fun f => str ["/* user function "; uniqueName f; " */"; newline])
    (str ["/* predefined types */"; newline])
    (fun p => "skepu_proxy_" +++ resolvedTypeName p)
    (fun p => "skepu_host_" +++ resolvedTypeName p).

Definition example_function (uniq : string) : UserFunction.t unit :=
  UserFunction.mk uniq "float" false false false 1%N
    [mkParam "a" "float"; mkParam "b" "float"] [] [] [].

Definition double_precision_matrix_function : UserFunction.t unit :=
  UserFunction.mk "f" "double" false false true 1%N
    [mkParam "a" "double"; mkParam "b" "double"]
    [mkRandomAccessParam (mkParam "m" "double") Matrix] [] [].

Definition two_constants : Registry :=
  [(64%N, UserConstant.mk "A" "1" "int");
   (32%N, UserConstant.mk "B" "2" "int")].

(** Three devices whose kernels build: device [d] gets the handle
    [100 + d]. *)
Definition example_buildProgram (device : nat) (source : string) : nat :=
  device.
Definition example_clCreateKernel (program : nat) (kernel_name : string)
  : Wrapper.cl_kernel * Z :=
  ((100 + Z.of_nat program)%Z, Wrapper.CL_SUCCESS).

(** A function indexed by row and column with a row proxy [m], a vector
    proxy [v] and a scalar [s]. *)
Definition example_row_function : UserFunction.t unit :=
  UserFunction.mk "g" "float" false true false 1%N
    [mkParam "a" "float"; mkParam "b" "float"]
    [mkRandomAccessParam (mkParam "m" "float") MatRow;
     mkRandomAccessParam (mkParam "v" "int") Vector]
    [mkParam "s" "int"] [].

(** No file yet, and every path can be opened for writing. *)
Definition empty_writable : FileSystem :=
  mkFileSystem (fun _ => true) (fun _ => None).

(** The texts occur in [text] one after the other, in this order. *)
Fixpoint in_order (needles : list string) (from : nat) (text : string)
  : bool :=
  match needles with
  | [] => true
  | x :: rest =>
      match String.index from x text with
      | Some m => in_order rest (m + String.length x) text
      | None => false
      end
  end.

(** The claim as the specification words it: whatever the traversal of the
    registry, the constants are defined in the order of their discovery. *)
Definition constants_in_discovery_order : Prop :=
  forall (UserType : Type) (cg : CodeGen UserType)
         (visit : Traversal), traversal_ok visit ->
  forall (discovered : Registry) (mapFunc : UserFunction.t UserType),
    emitted_constants (source_fragments cg (visit discovered) mapFunc)
    = map snd discovered.

(** ** Further vocabulary: the parameter lists *)

(** A list written with [", "] after every element, as the three parameter
    streams are. *)
Definition listed (items : list string) : string :=
  str (map (fun x => x +++ ", ") items).

(** Kernel parameters declared for one elementwise parameter, one
    container parameter and one scalar, and the host expressions bound to
    them by [setKernelArgs]. *)
Definition elwise_kernel_params (p : UserFunction.Param) : list string :=
  [str ["__global "; resolvedTypeName p; " *"; name p]].

Definition elwise_kernel_args (p : UserFunction.Param) : list string :=
  [str [name p; "->getDeviceDataPointer()"]].

Definition container_kernel_params (p : UserFunction.RandomAccessParam)
  : list string :=
  let raw := "skepu_container_" +++ name p in
  let data := str ["__global "; resolvedTypeName p; " *"; raw] in
  match containerType p with
  | Vector => [data; "size_t skepu_size_" +++ name p]
  | Matrix =>
      [data; "size_t skepu_rows_" +++ name p; "size_t skepu_cols_" +++ name p]
  | SparseMatrix =>
      [data; str ["__global size_t *"; name p; "_row_pointers"];
       str ["__global size_t *"; name p; "_col_indices"];
       "size_t skepu_size_" +++ name p]
  | MatRow => [data; "size_t skepu_cols_" +++ name p]
  | Tensor3 =>
      [data; "size_t skepu_size_i_" +++ name p;
       "size_t skepu_size_j_" +++ name p; "size_t skepu_size_k_" +++ name p]
  | Tensor4 =>
      [data; "size_t skepu_size_i_" +++ name p;
       "size_t skepu_size_j_" +++ name p; "size_t skepu_size_k_" +++ name p;
       "size_t skepu_size_l_" +++ name p]
  end.

Definition container_kernel_args (p : UserFunction.RandomAccessParam)
  : list string :=
  let raw := "skepu_container_" +++ name p in
  let get (k member : string) : string :=
    str ["std::get<"; k; ">("; raw; ")->"; member; "()"] in
  match containerType p with
  | Vector => [get "1" "getDeviceDataPointer"; get "0" "size"]
  | Matrix =>
      [get "1" "getDeviceDataPointer"; get "0" "total_rows";
       get "0" "total_cols"]
  | SparseMatrix =>
      [get "1" "getDeviceDataPointer"; get "2" "getDeviceDataPointer";
       get "3" "getDeviceDataPointer"; get "0" "total_nnz"]
  | MatRow => [get "1" "getDeviceDataPointer"; get "0" "total_cols"]
  | Tensor3 =>
      [get "1" "getDeviceDataPointer"; get "0" "size_i"; get "0" "size_j";
       get "0" "size_k"]
  | Tensor4 =>
      [get "1" "getDeviceDataPointer"; get "0" "size_i"; get "0" "size_j";
       get "0" "size_k"; get "0" "size_l"]
  end.

Definition scalar_kernel_params (p : UserFunction.Param) : list string :=
  [str [resolvedTypeName p; " "; name p]].

Definition scalar_kernel_args (p : UserFunction.Param) : list string :=
  [name p].

Definition kernel_params {UserType} (mapFunc : UserFunction.t UserType)
  : list string :=
  flat_map elwise_kernel_params (elwiseParams mapFunc)
  ++ flat_map container_kernel_params (anyContainerParams mapFunc)
  ++ flat_map scalar_kernel_params (anyScalarParams mapFunc).

Definition kernel_args {UserType} (mapFunc : UserFunction.t UserType)
  : list string :=
  flat_map elwise_kernel_args (elwiseParams mapFunc)
  ++ flat_map container_kernel_args (anyContainerParams mapFunc)
  ++ flat_map scalar_kernel_args (anyScalarParams mapFunc).

(** Parameters of the host function [map], one for each parameter of the
    user function. *)
Definition host_params {UserType} (cg : CodeGen UserType)
  (mapFunc : UserFunction.t UserType) : list string :=
  map (fun p : UserFunction.Param =>
         str ["skepu::backend::DeviceMemPointer_CL<"; resolvedTypeName p;
              "> *"; name p]) (elwiseParams mapFunc)
  ++ map (fun p : UserFunction.RandomAccessParam =>
            str [TypeNameHost cg p; " skepu_container_"; name p])
       (anyContainerParams mapFunc)
  ++ map (fun p : UserFunction.Param =>
            str [resolvedTypeName p; " "; name p]) (anyScalarParams mapFunc).

(** The part of the state that holds the three lists. *)
Definition lists_of (st : Streams) : string * string * string :=
  (SSKernelParamList st, SSKernelArgs st, SSHostKernelParamList st).
(** ** Further vocabulary: launching the kernel

    [map] of the wrapper template, lines 66-76: it reads the kernel of the
    device from the table, binds the arguments to it, looks the device up
    with [m_devices_CL.at(deviceID)], which checks the ordinal, reads the
    kernel again and enqueues it on the queue of the device.  The result
    says what is handed to the OpenCL runtime. *)

Module WrapperMap.

Inductive Launch (Device : Type) : Type :=
  | Enqueued (bound enqueued : Wrapper.cl_kernel) (device : Device)
  | TableOutOfBounds
  | NoSuchDevice.
Arguments Enqueued {Device}.
Arguments TableOutOfBounds {Device}.
Arguments NoSuchDevice {Device}.

Definition map {Device : Type} (st : Wrapper.Statics)
  (m_devices_CL : list Device) (deviceID : nat) : Launch Device :=
  match Wrapper.kernels st deviceID None with
  | Wrapper.Returns (st1, bound) =>
      match nth_error m_devices_CL deviceID with
      | Some device =>
          match Wrapper.kernels st1 deviceID None with
          | Wrapper.Returns (_, enqueued) => Enqueued bound enqueued device
          | _ => TableOutOfBounds
          end
      | None => NoSuchDevice
      end
  | _ => TableOutOfBounds
  end.

End WrapperMap.
(** ** Further vocabulary: the work of one worker and the element accesses *)

(** Number of indices [g, g + W, g + 2 W, ...] below [n], and the indices. *)
Definition stride_count (n W g : Z) : nat :=
  Z.to_nat ((n - g + W - 1) / W).

Definition stride_indices (n W g : Z) : list Z :=
  map (fun k => (g + Z.of_nat k * W)%Z) (seq 0 (stride_count n W g)).

(** The subscripts of the elementwise accesses, [i / Hsize] for a vertical
    parameter and [i % Hsize] for a horizontal one, and the variables in
    scope there. *)
Definition vertical_access : CExpr := EDiv (EVar "i") (EVar "Hsize").
Definition horizontal_access : CExpr := EMod (EVar "i") (EVar "Hsize").

Definition access_env (Hsize i : Z) : string -> Z :=
  fun x =>
    if (x =? "Hsize")%string then Hsize
    else if (x =? "i")%string then i
    else 0%Z.
(** ** The driver: [main] of skepu.cpp *)

Module Driver.

(** The command line options, lines 13-28. *)
Record Options : Type := mkOptions {
  ResultDir : string;
  ResultName : string;
  GenCUDA : bool;
  GenOMP : bool;
  GenCL : bool;
  GenStarPUMPI : bool;
  GenMPI : bool;
  Verbose : bool;
  Silent : bool;
  NoAddExtension : bool;
  DoNotGenLineDirectives : bool;
  AllowedFuncNames : string
}.

(** [std::isspace] in the classic locale: the space and the characters
    9 to 13. *)
Definition isspace (c : ascii) : bool :=
  ((nat_of_ascii c =? 32)%nat
   || ((9 <=? nat_of_ascii c)%nat && (nat_of_ascii c <=? 13)%nat))%bool.

(** [std::istream_iterator<std::string>] over a [std::istringstream],
    lines 187-188: each extraction skips the white space and reads up to
    the next white space or the end; [word] holds the characters of the
    word being read. *)
Fixpoint read_words (word : string) (s : string) : list string :=
  match s with
  | EmptyString =>
      match word with
      | EmptyString => []
      | _ => [word]
      end
  | String c rest =>
      if isspace c then
        match word with
        | EmptyString => read_words "" rest
        | _ => word :: read_words "" rest
        end
      else read_words (word +++ String c "") rest
  end.

Definition Names (AllowedFuncNames : string) : list string :=
  read_words "" AllowedFuncNames.

(** The initial contents of [AllowedFunctionNamesCalledInUFs], lines 49-63.
    A [std::unordered_set] is kept as the list of its elements; only
    membership is ever asked of it. *)
Definition AllowedFunctionNamesCalledInUFs : list string :=
  ["exp"; "exp2"; "exp2f";
   "sqrt";
   "abs"; "fabs";
   "max"; "fmax";
   "pow";
   "log"; "log2"; "log10";
   "sin"; "sinh"; "asin"; "asinh";
   "cos"; "cosh"; "acos"; "acosh";
   "tan"; "tanh"; "atan"; "atanh";
   "round"; "ceil"; "floor";
   "erf";
   "printf"].

(** [std::unordered_set::insert]: an element already present is not added
    again. *)
Definition insert (name : string) (set : list string) : list string :=
  if in_dec string_dec name set then set else name :: set.

(** Lines 187-190: the set after the loop over [Names]. *)
Definition allowed_names (opts : Options) : list string :=
  fold_left (fun set name => insert name set)
    (Names (AllowedFuncNames opts)) AllowedFunctionNamesCalledInUFs.

(** Line 172.  [name] is the value of [ResultName] at that point: the
    option, or the first source path when the option is empty (lines
    170-171). *)
Definition mainFileName (opts : Options) (name : string) : string :=
  str [ResultDir opts; "/"; name;
       if NoAddExtension opts then ""
       else if GenCUDA opts then ".cu" else ".cpp"].

(** [SkePULog()], lines 91-97: what reaches the standard output of a text
    sent to the log, [llvm::outs()] or [llvm::nulls()]. *)
Definition SkePULog (opts : Options) (text : string) : string :=
  if Verbose opts then text else "".

Definition on_off (b : bool) : string := if b then "ON" else "OFF".

(** Lines 174-185: the text on standard output. *)
Definition banner (opts : Options) (mainFileName : string) : string :=
  if negb (Silent opts) then
    str [SkePULog opts ("# ======================================= #" +++ newline);
         SkePULog opts ("~   SkePU source-to-source compiler v3    ~" +++ newline);
         SkePULog opts ("# --------------------------------------- #" +++ newline);
         SkePULog opts (str ["   OpenMP gen:       "; on_off (GenOMP opts); newline]);
         SkePULog opts (str ["   CUDA gen:         "; on_off (GenCUDA opts); newline]);
         SkePULog opts (str ["   OpenCL gen:       "; on_off (GenCL opts); newline]);
         SkePULog opts (str ["   StarPU-MPI gen:   "; on_off (GenStarPUMPI opts); newline]);
         SkePULog opts (str ["   Main output file: "; mainFileName; newline]);
         SkePULog opts ("# ======================================= #" +++ newline)]
  else "".

(** A word as an extraction yields it: not empty, no white space in it. *)
Definition spaceless (w : string) : Prop :=
  Forall (fun c => isspace c = false) (list_ascii_of_string w).

Definition is_word (w : string) : Prop := w <> "" /\ spaceless w.

End Driver.

(** ** Further vocabulary: the assembled artifact, lines 231-248 *)

(** *** The filled templates

    The two templates with a text in place of every slot, as lists of the
    pieces that follow one another.  The wrapper template is cut after the
    line that names the class and at the slot of the kernel source, the
    kernel template at the slot of the proxies that are initialized before
    the loop. *)

Definition class_header (class_name : string) : list string :=
  [newline; "class "; class_name; newline].





(** What [sourceStream] holds when the kernel template is appended to it
    (line 229). *)
Definition kernel_preamble {UserType} (cg : CodeGen UserType)
  (UserConstants : list (VarDecl * UserConstant.t))
  (mapFunc : UserFunction.t UserType) : string :=
  (if requiresDoublePrecision mapFunc then pragma_fp64 else "")
  +++ proxy_definitions cg (containerProxyTypes (collect cg mapFunc))
  +++ constant_definitions UserConstants
  +++ user_type_definitions cg (ReferencedUTs mapFunc)
  +++ KernelPredefinedTypes_CL cg
  +++ generateUserFunctionCode_CL cg mapFunc.

(** *** Texts that keep clear of the slots

    Every slot name starts with [SKEPU_].  The twelve texts put in place of
    the slots are, apart from the kernel template itself, the index
    initializer and the prefix of the class name, texts that depend on the
    user's program; the substitutions of lines 232-243 are followed for
    programs in which none of them contains [SKEPU_]. *)

Definition slot_marker : string := "SKEPU_".

Definition inserted_texts {UserType} (cg : CodeGen UserType)
  (ResultName : string) (UserConstants : list (VarDecl * UserConstant.t))
  (mapFunc : UserFunction.t UserType) (Varity Harity : N) : list string :=
  let st := collect cg mapFunc in
  [kernel_preamble cg UserConstants mapFunc;
   resolvedReturnTypeName mapFunc;
   kernelName cg ResultName mapFunc Varity Harity;
   uniqueName mapFunc;
   SSKernelParamList st;
   SSHostKernelParamList st;
   SSMapFuncParams st;
   SSKernelArgs st;
   SSProxyInitializer st;
   SSProxyInitializerInner st].

Definition slot_free {UserType} (cg : CodeGen UserType)
  (ResultName : string) (UserConstants : list (VarDecl * UserConstant.t))
  (mapFunc : UserFunction.t UserType) (Varity Harity : N) : bool :=
  forallb (fun text => (occurrences slot_marker text =? 0)%nat)
    (inserted_texts cg ResultName UserConstants mapFunc Varity Harity).

(** *** A text under substitution

    The text being assembled is followed as a sequence of segments: literal
    text of the templates, in which the slot names not yet replaced stand,
    and inserted texts, named by their position in an environment. *)




















(** *** The name of the wrapper class

    The artifact starts with the declaration of the class [class_name]. *)
Definition declares_wrapper (artifact class_name : string) : bool :=
  String.prefix (str (class_header class_name ++ ["{"])) artifact.


(** * Part II: properties *)

(** ** Strings *)

Lemma append_nil_r (s : string) : s +++ "" = s.
Proof. induction s as [|c s IH]; simpl; [reflexivity | now rewrite IH]. Qed.

Lemma append_assoc (a b c : string) : (a +++ b) +++ c = a +++ (b +++ c).
Proof. induction a as [|x a IH]; simpl; [reflexivity | now rewrite IH]. Qed.

Lemma length_append (a b : string) :
  String.length (a +++ b) = String.length a + String.length b.
Proof. induction a as [|x a IH]; simpl; [reflexivity | now rewrite IH]. Qed.

Lemma list_ascii_of_append (a b : string) :
  list_ascii_of_string (a +++ b)
  = (list_ascii_of_string a ++ list_ascii_of_string b)%list.
Proof. induction a as [|x a IH]; simpl; [reflexivity | now rewrite IH]. Qed.

Lemma list_ascii_of_string_inj (a b : string) :
  list_ascii_of_string a = list_ascii_of_string b -> a = b.
Proof.
  intros H.
  rewrite <- (string_of_list_ascii_of_string a),
          <- (string_of_list_ascii_of_string b).
  now rewrite H.
Qed.

Lemma append_inv_head (a x y : string) : a +++ x = a +++ y -> x = y.
Proof.
  induction a as [|c a IH]; simpl; intros H; [exact H|].
  inversion H. now apply IH.
Qed.

Lemma concat_snoc (sep : string) (l : list string) (a : string) :
  String.concat sep (l ++ [a])
  = match l with
    | [] => a
    | _ :: _ => String.concat sep l +++ sep +++ a
    end.
Proof.
  induction l as [|x l IH]; [reflexivity|].
  destruct l as [|y l].
  - reflexivity.
  - change (String.concat sep ((x :: y :: l) ++ [a]))
      with (x +++ sep +++ String.concat sep ((y :: l) ++ [a])).
    rewrite IH.
    change (String.concat sep (x :: y :: l))
      with (x +++ sep +++ String.concat sep (y :: l)).
    now rewrite !append_assoc.
Qed.

Lemma str_cons (a : string) (l : list string) : str (a :: l) = a +++ str l.
Proof.
  unfold str. destruct l as [|b l]; simpl; [now rewrite append_nil_r|].
  reflexivity.
Qed.

Lemma str_app (a b : list string) : str (a ++ b) = str a +++ str b.
Proof.
  induction a as [|x a IH]; [reflexivity|].
  change ((x :: a) ++ b) with (x :: (a ++ b)).
  now rewrite !str_cons, IH, append_assoc.
Qed.

(** ** The argument list of the call to the user function *)

Section CallArguments.

Context {UserType : Type}.
Variable cg : CodeGen UserType.

Lemma separator_then (st : Streams) (done : list string) (a : string) :
  args_inv st done ->
  SSMapFuncParams (separator st) +++ a = String.concat ", " (done ++ [a]).
Proof.
  intros [Hs Hf]. unfold separator. rewrite concat_snoc, Hf.
  destruct done; simpl.
  - now rewrite Hs.
  - rewrite Hs. now rewrite append_assoc.
Qed.

Lemma ctr_separator (st : Streams) : ctr (separator st) = ctr st.
Proof. unfold separator. now destruct (first st). Qed.

Lemma args_inv_snoc (done : list string) (a : string) (st : Streams) :
  SSMapFuncParams st = String.concat ", " (done ++ [a]) ->
  first st = false ->
  args_inv st (done ++ [a]).
Proof.
  intros Hs Hf. split; [exact Hs|].
  rewrite Hf. now destruct done.
Qed.

Lemma index_step_inv (mapFunc : UserFunction.t UserType) :
  args_inv (index_step mapFunc initial_streams)
    (if indexed1D mapFunc || indexed2D mapFunc then ["index"] else []).
Proof.
  unfold index_step.
  destruct (indexed1D mapFunc), (indexed2D mapFunc); split; reflexivity.
Qed.

Lemma elwise_step_inv (mapFunc : UserFunction.t UserType) st done p :
  args_inv st done ->
  args_inv (elwise_step mapFunc st p)
    (done ++ elwise_accesses (Varity mapFunc) (ctr st) [p])
  /\ ctr (elwise_step mapFunc st p) = (ctr st + 1)%N.
Proof.
  intros H. unfold elwise_step. simpl. rewrite ctr_separator.
  split.
  - apply args_inv_snoc.
    + destruct (ctr st <? Varity mapFunc)%N; unfold str; simpl;
        apply (separator_then st done _ H).
    + now destruct (ctr st <? Varity mapFunc)%N.
  - destruct (ctr st <? Varity mapFunc)%N; simpl; now rewrite ctr_separator.
Qed.

Lemma elwise_loop_inv (mapFunc : UserFunction.t UserType) ps :
  forall st done, args_inv st done ->
  args_inv (fold_left (elwise_step mapFunc) ps st)
    (done ++ elwise_accesses (Varity mapFunc) (ctr st) ps).
Proof.
  induction ps as [|p ps IH]; intros st done H; simpl.
  - now rewrite app_nil_r.
  - destruct (elwise_step_inv mapFunc st done p H) as [Hi Hc].
    specialize (IH _ _ Hi). rewrite Hc in IH.
    simpl in IH. now rewrite <- app_assoc in IH.
Qed.

Lemma container_case_args (param : UserFunction.RandomAccessParam) nm st :
  SSMapFuncParams (container_case cg param nm st) = SSMapFuncParams st
  /\ first (container_case cg param nm st) = first st.
Proof.
  unfold container_case. destruct (containerType param); split; reflexivity.
Qed.

Lemma container_step_inv st done (p : UserFunction.RandomAccessParam) :
  args_inv st done ->
  args_inv (container_step cg st p) (done ++ [name p]).
Proof.
  intros H. apply args_inv_snoc; [|reflexivity].
  unfold container_step. simpl.
  rewrite (proj1 (container_case_args p _ _)). simpl.
  apply (separator_then st done _ H).
Qed.

Lemma container_loop_inv (ps : list UserFunction.RandomAccessParam) :
  forall st done, args_inv st done ->
  args_inv (fold_left (container_step cg) ps st)
    (done ++ map (fun p : UserFunction.RandomAccessParam => name p) ps).
Proof.
  induction ps as [|p ps IH]; intros st done H; simpl.
  - now rewrite app_nil_r.
  - specialize (IH _ _ (container_step_inv st done p H)).
    now rewrite <- app_assoc in IH.
Qed.

Lemma scalar_step_inv st done (p : UserFunction.Param) :
  args_inv st done ->
  args_inv (scalar_step st p) (done ++ [name p]).
Proof.
  intros H. apply args_inv_snoc; [|reflexivity].
  unfold scalar_step. simpl.
  apply (separator_then st done _ H).
Qed.

Lemma scalar_loop_inv (ps : list UserFunction.Param) :
  forall st done, args_inv st done ->
  args_inv (fold_left scalar_step ps st) (done ++ map name ps).
Proof.
  induction ps as [|p ps IH]; intros st done H; simpl.
  - now rewrite app_nil_r.
  - specialize (IH _ _ (scalar_step_inv st done p H)).
    now rewrite <- app_assoc in IH.
Qed.

Lemma collect_call_arguments (mapFunc : UserFunction.t UserType) :
  SSMapFuncParams (collect cg mapFunc)
  = String.concat ", " (call_arguments mapFunc).
Proof.
  unfold collect, call_arguments.
  pose proof (index_step_inv mapFunc) as H0.
  pose proof (elwise_loop_inv mapFunc (elwiseParams mapFunc) _ _ H0) as H1.
  assert (Hc : ctr (index_step mapFunc initial_streams) = 0%N).
  { unfold index_step.
    now destruct (indexed1D mapFunc), (indexed2D mapFunc). }
  rewrite Hc in H1.
  pose proof (container_loop_inv (anyContainerParams mapFunc) _ _ H1) as H2.
  pose proof (scalar_loop_inv (anyScalarParams mapFunc) _ _ H2) as [H3 _].
  rewrite H3. now rewrite <- !app_assoc.
Qed.

End CallArguments.

(** C1. The text substituted for SKEPU_MAP_PARAMS lists the arguments of the
    call in the declared order: [index] first when the function is indexed,
    then every elementwise parameter, read at [i / Hsize] when its position
    is among the first [Varity] ones and at [i % Hsize] otherwise, then every
    container parameter by the name of its proxy, then every scalar by name,
    separated by a comma and a space.  For one vertical parameter [a] and one
    horizontal parameter [b] without indexing the text is
    [a[i / Hsize], b[i % Hsize]]. *)
Theorem call_argument_order :
  (forall (UserType : Type) (cg : CodeGen UserType)
          (mapFunc : UserFunction.t UserType),
      SSMapFuncParams (collect cg mapFunc)
      = String.concat ", " (call_arguments mapFunc))
  /\ (forall (UserType : Type) (cg : CodeGen UserType)
             (uniq ret ta tb : string) (fp64 : bool) (uts : list UserType),
      SSMapFuncParams
        (collect cg
           (UserFunction.mk uniq ret false false fp64 1%N
              [mkParam "a" ta; mkParam "b" tb] [] [] uts))
      = "a[i / Hsize], b[i % Hsize]").
Proof.
  split.
  - intros. apply collect_call_arguments.
  - intros. rewrite collect_call_arguments. reflexivity.
Qed.

(** ** The ordered set of element types *)

Lemma ascii_compare_refl (c : ascii) : Ascii.compare c c = Eq.
Proof. unfold Ascii.compare. apply N.compare_refl. Qed.

Lemma ascii_compare_lt_trans (a b c : ascii) :
  Ascii.compare a b = Lt -> Ascii.compare b c = Lt -> Ascii.compare a c = Lt.
Proof.
  unfold Ascii.compare. rewrite !N.compare_lt_iff. apply N.lt_trans.
Qed.

Lemma string_compare_refl (s : string) : String.compare s s = Eq.
Proof.
  induction s as [|c s IH]; simpl; [reflexivity|].
  now rewrite ascii_compare_refl.
Qed.

Lemma string_lt_irrefl (s : string) : ~ string_lt s s.
Proof. unfold string_lt. now rewrite string_compare_refl. Qed.

Lemma string_lt_trans (a b c : string) :
  string_lt a b -> string_lt b c -> string_lt a c.
Proof.
  unfold string_lt. revert b c.
  induction a as [|x a IH]; intros [|y b] [|z c]; simpl;
    try discriminate; try reflexivity.
  destruct (Ascii.compare x y) eqn:Hxy; try discriminate;
    destruct (Ascii.compare y z) eqn:Hyz; try discriminate; intros Hab Hbc.
  - apply Ascii.compare_eq_iff in Hxy, Hyz. subst.
    rewrite ascii_compare_refl. now apply (IH b).
  - apply Ascii.compare_eq_iff in Hxy. subst. now rewrite Hyz.
  - apply Ascii.compare_eq_iff in Hyz. subst. now rewrite Hxy.
  - now rewrite (ascii_compare_lt_trans _ _ _ Hxy Hyz).
Qed.

Lemma string_compare_gt_lt (a b : string) :
  String.compare a b = Gt -> string_lt b a.
Proof.
  unfold string_lt. intros H. rewrite String.compare_antisym, H. reflexivity.
Qed.

Lemma In_set_insert (x y : string) (s : list string) :
  In y (set_insert x s) <-> y = x \/ In y s.
Proof.
  induction s as [|z s IH]; simpl.
  - intuition.
  - destruct (String.compare x z) eqn:Hc; simpl.
    + apply String.compare_eq_iff in Hc. subst. intuition.
    + intuition.
    + rewrite IH. intuition.
Qed.

Lemma set_insert_sorted (x : string) (s : list string) :
  StronglySorted string_lt s -> StronglySorted string_lt (set_insert x s).
Proof.
  induction s as [|z s IH]; simpl; intros Hs.
  - constructor; constructor.
  - inversion Hs as [|? ? Hs' Hall]; subst.
    destruct (String.compare x z) eqn:Hc.
    + exact Hs.
    + constructor; [exact Hs|].
      constructor; [exact Hc|].
      apply Forall_forall. intros t Ht.
      apply (string_lt_trans x z t Hc).
      rewrite Forall_forall in Hall. now apply Hall.
    + constructor; [now apply IH|].
      apply Forall_forall. intros t Ht.
      apply In_set_insert in Ht. destruct Ht as [-> | Ht].
      * now apply string_compare_gt_lt.
      * rewrite Forall_forall in Hall. now apply Hall.
Qed.


(** ** Proxy definitions: one per (kind, element type) *)

Section ProxyTypes.

Context {UserType : Type}.
Variable cg : CodeGen UserType.

Lemma types_separator st :
  containerProxyTypes (separator st) = containerProxyTypes st.
Proof. unfold separator. now destruct (first st). Qed.

Lemma types_index_step (mapFunc : UserFunction.t UserType) st :
  containerProxyTypes (index_step mapFunc st) = containerProxyTypes st.
Proof.
  unfold index_step. now destruct (indexed1D mapFunc), (indexed2D mapFunc).
Qed.

Lemma types_elwise_loop (mapFunc : UserFunction.t UserType) ps :
  forall st, containerProxyTypes (fold_left (elwise_step mapFunc) ps st)
             = containerProxyTypes st.
Proof.
  induction ps as [|p ps IH]; intros st; simpl; [reflexivity|].
  rewrite IH. unfold elwise_step. simpl.
  destruct (ctr (separator st) <? Varity mapFunc)%N; simpl;
    apply types_separator.
Qed.

Lemma types_scalar_loop ps :
  forall st, containerProxyTypes (fold_left scalar_step ps st)
             = containerProxyTypes st.
Proof.
  induction ps as [|p ps IH]; intros st; simpl; [reflexivity|].
  rewrite IH. unfold scalar_step. simpl. apply types_separator.
Qed.

Lemma types_container_case (param : UserFunction.RandomAccessParam) nm st :
  containerProxyTypes (container_case cg param nm st)
  = containerProxyTypes st.
Proof. unfold container_case. now destruct (containerType param). Qed.

Lemma types_container_step st (p : UserFunction.RandomAccessParam) :
  containerProxyTypes (container_step cg st p)
  = map_insert (containerProxyTypes st) (containerType p)
      (resolvedTypeName p).
Proof.
  unfold container_step. simpl. rewrite types_container_case. simpl.
  now rewrite types_separator.
Qed.

Lemma types_inv_empty : types_inv empty_map [].
Proof. intros k. split; [constructor | simpl; tauto]. Qed.

Lemma types_inv_insert m seen (p : UserFunction.RandomAccessParam) :
  types_inv m seen ->
  types_inv (map_insert m (containerType p) (resolvedTypeName p))
    (seen ++ [p]).
Proof.
  intros H k. destruct (H k) as [Hs Hin]. unfold map_insert.
  assert (Hsnoc : forall t, In (k, t) (map proxy_key (seen ++ [p]))
                   <-> In (k, t) (map proxy_key seen)
                       \/ (containerType p, resolvedTypeName p) = (k, t)).
  { intros t. rewrite map_app, in_app_iff. simpl. unfold proxy_key at 2.
    tauto. }
  destruct (ContainerType_eq_dec k (containerType p)) as [->|Hk].
  - split; [now apply set_insert_sorted|].
    intros t. rewrite In_set_insert, Hin, Hsnoc. split.
    + intros [-> | ?]; [now right | now left].
    + intros [? | E]; [now right | left; congruence].
  - split; [exact Hs|].
    intros t. rewrite Hin, Hsnoc. split.
    + now left.
    + intros [? | E]; [assumption | congruence].
Qed.

Lemma types_container_loop ps :
  forall st seen, types_inv (containerProxyTypes st) seen ->
  types_inv (containerProxyTypes (fold_left (container_step cg) ps st))
    (seen ++ ps).
Proof.
  induction ps as [|p ps IH]; intros st seen H; simpl.
  - now rewrite app_nil_r.
  - replace (seen ++ p :: ps) with ((seen ++ [p]) ++ ps)
      by now rewrite <- app_assoc.
    apply IH. rewrite types_container_step. now apply types_inv_insert.
Qed.

Lemma types_collect (mapFunc : UserFunction.t UserType) :
  types_inv (containerProxyTypes (collect cg mapFunc))
    (anyContainerParams mapFunc).
Proof.
  unfold collect. intros k. rewrite types_scalar_loop.
  apply (types_container_loop (anyContainerParams mapFunc) _ []).
  rewrite types_elwise_loop, types_index_step. apply types_inv_empty.
Qed.

End ProxyTypes.

Section Dedup.

Context {UserType : Type}.
Variable cg : CodeGen UserType.

Lemma emitted_app (a b : list (@Fragment UserType)) :
  emitted_proxy_keys (a ++ b) = emitted_proxy_keys a ++ emitted_proxy_keys b.
Proof. apply flat_map_app. Qed.

Lemma emitted_proxies (k : ContainerType) (l : list string) :
  emitted_proxy_keys (map (@FProxy UserType k) l) = map (pair k) l.
Proof. induction l as [|t l IH]; simpl; [reflexivity | now rewrite IH]. Qed.

Lemma emitted_defines (l : list (VarDecl * UserConstant.t)) :
  emitted_proxy_keys
    (map (fun pair => @FDefine UserType (snd pair)) l) = [].
Proof. induction l as [|c l IH]; simpl; [reflexivity | exact IH]. Qed.

Lemma emitted_user_types (l : list UserType) :
  emitted_proxy_keys (map FUserType l) = [].
Proof. induction l as [|c l IH]; simpl; [reflexivity | exact IH]. Qed.

(** The proxy definitions of the source are those of the six loops. *)
Lemma emitted_source UserConstants (mapFunc : UserFunction.t UserType) :
  emitted_proxy_keys (source_fragments cg UserConstants mapFunc)
  = flat_map
      (fun k => map (pair k) (containerProxyTypes (collect cg mapFunc) k))
      all_kinds.
Proof.
  unfold source_fragments, proxy_fragments.
  rewrite !emitted_app, !emitted_proxies, emitted_defines,
    emitted_user_types.
  destruct (requiresDoublePrecision mapFunc); simpl;
    now rewrite !app_nil_r.
Qed.







End Dedup.


(** ** Where the proxy initializers go *)

Section ProxyPlacement.

Context {UserType : Type}.
Variable cg : CodeGen UserType.








End ProxyPlacement.

(** ** Kernel and wrapper names *)

Lemma string_of_uint_digits (d : Decimal.uint) :
  Forall (fun c => is_digit c = true)
    (list_ascii_of_string (NilEmpty.string_of_uint d)).
Proof. induction d; simpl; constructor; (reflexivity || assumption). Qed.

Lemma string_of_uint_inj (d d' : Decimal.uint) :
  NilEmpty.string_of_uint d = NilEmpty.string_of_uint d' -> d = d'.
Proof.
  intros H. apply (f_equal NilEmpty.uint_of_string) in H.
  rewrite !NilEmpty.usu in H. now inversion H.
Qed.

Lemma size_t_to_string_inj (a b : N) :
  size_t_to_string a = size_t_to_string b -> a = b.
Proof.
  unfold size_t_to_string. intros H.
  now apply DecimalN.Unsigned.to_uint_inj, string_of_uint_inj.
Qed.

(** Two runs of digits, each followed by a character that is not a digit:
    equal texts have equal runs. *)
Lemma digit_run_unique (l1 l2 r1 r2 : list ascii) (x y : ascii) :
  Forall (fun c => is_digit c = true) l1 ->
  Forall (fun c => is_digit c = true) l2 ->
  is_digit x = false -> is_digit y = false ->
  l1 ++ x :: r1 = l2 ++ y :: r2 ->
  l1 = l2 /\ r1 = r2.
Proof.
  intros H1. revert l2.
  induction H1 as [|c l1 Hc H1 IH]; intros l2 H2 Hx Hy E.
  - destruct l2 as [|c2 l2]; simpl in E.
    + injection E as _ E. now split.
    + injection E as Ec _. subst.
      inversion H2 as [|? ? Hc2 _]; subst. congruence.
  - destruct l2 as [|c2 l2]; simpl in E.
    + injection E as Ec _. subst. congruence.
    + injection E as Ec E. subst.
      inversion H2 as [|? ? _ H2']; subst.
      destruct (IH l2 H2' Hx Hy E) as [El Er]. subst. now split.
Qed.

(** The part of a kernel name that follows the sanitized base name, read
    backwards: the digits of Harity, the tag, the digits of Varity, the tag,
    the unique name. *)
Lemma shape_suffix_inj (u1 u2 : string) (V1 H1 V2 H2 : N) :
  u1 +++ "_Varity_" +++ size_t_to_string V1
     +++ "_Harity_" +++ size_t_to_string H1
  = u2 +++ "_Varity_" +++ size_t_to_string V2
       +++ "_Harity_" +++ size_t_to_string H2
  -> u1 = u2 /\ V1 = V2 /\ H1 = H2.
Proof.
  intros E.
  apply (f_equal list_ascii_of_string) in E.
  rewrite !list_ascii_of_append in E.
  apply (f_equal (@rev ascii)) in E.
  rewrite !rev_app_distr in E. rewrite <- !app_assoc in E.
  simpl in E.
  assert (Hd : forall n, Forall (fun c => is_digit c = true)
                 (rev (list_ascii_of_string (size_t_to_string n)))).
  { intros n. apply Forall_rev, string_of_uint_digits. }
  apply digit_run_unique in E; [|apply Hd|apply Hd|reflexivity|reflexivity].
  destruct E as [EH E].
  do 7 (apply (f_equal (@tl ascii)) in E; simpl in E).
  apply digit_run_unique in E; [|apply Hd|apply Hd|reflexivity|reflexivity].
  destruct E as [EV E].
  do 7 (apply (f_equal (@tl ascii)) in E; simpl in E).
  apply (f_equal (@rev ascii)) in EH, EV, E.
  rewrite !rev_involutive in EH, EV, E.
  apply list_ascii_of_string_inj in EH, EV, E.
  apply size_t_to_string_inj in EH, EV. now repeat split.
Qed.

Lemma kernelName_inj {UserType} (cg : CodeGen UserType) (ResultName : string)
  (f1 f2 : UserFunction.t UserType) (V1 H1 V2 H2 : N) :
  kernelName cg ResultName f1 V1 H1 = kernelName cg ResultName f2 V2 H2 ->
  uniqueName f1 = uniqueName f2 /\ V1 = V2 /\ H1 = H2.
Proof.
  intros E. apply shape_suffix_inj.
  apply (append_inv_head "_MapPairsKernel_").
  apply (append_inv_head (transformToCXXIdentifier cg ResultName)).
  exact E.
Qed.

(** C5. Within one run of the tool (one output base name), two
    instantiations whose user functions differ in [uniqueName], or whose
    shapes (Varity, Harity) differ, get different kernel names; and the
    kernel name depends on nothing but the base name, the unique name and
    the shape, so equal inputs give equal names. *)
Theorem kernel_name_unique_and_stable :
  forall (UserType : Type) (cg : CodeGen UserType) (ResultName : string)
         (f1 f2 : UserFunction.t UserType) (V1 H1 V2 H2 : N),
    (uniqueName f1 <> uniqueName f2 \/ (V1, H1) <> (V2, H2) ->
     kernelName cg ResultName f1 V1 H1 <> kernelName cg ResultName f2 V2 H2)
    /\ (uniqueName f1 = uniqueName f2 -> (V1, H1) = (V2, H2) ->
        kernelName cg ResultName f1 V1 H1 = kernelName cg ResultName f2 V2 H2).
Proof.
  intros UserType cg ResultName f1 f2 V1 H1 V2 H2. split.
  - intros Hdiff E. apply kernelName_inj in E. destruct E as [Eu [EV EH]].
    destruct Hdiff as [Hu | Hs]; [now apply Hu|].
    apply Hs. now subst.
  - intros Eu Es. inversion Es; subst. unfold kernelName. now rewrite Eu.
Qed.

Lemma kernel_name_unique_and_stable_witness :
  kernelName example_codegen "prog" (example_function "f") 2 3
  <> kernelName example_codegen "prog" (example_function "g") 2 3
  /\ kernelName example_codegen "prog" (example_function "f") 2 3
     = kernelName example_codegen "prog" (example_function "f") 2 3.
Proof.
  split.
  - apply (kernel_name_unique_and_stable unit example_codegen "prog"
             (example_function "f") (example_function "g") 2 3 2 3).
    left. simpl. discriminate.
  - apply (kernel_name_unique_and_stable unit example_codegen "prog"
             (example_function "f") (example_function "f") 2 3 2 3);
      reflexivity.
Defined.

(** The scenario of the specification: base name [prog], function [f],
    Varity 2 and Harity 3. *)
Example kernel_name_prog_f_2_3 :
  kernelName example_codegen "prog" (example_function "f") 2 3
  = "prog_MapPairsKernel_f_Varity_2_Harity_3".
Proof. reflexivity. Qed.

(** The base name is part of the guarantee: across two runs with different
    base names, a unique name that contains the tag can make two names
    meet. *)
Example kernel_names_across_base_names :
  kernelName example_codegen "a" (example_function "b_MapPairsKernel_c") 1 1
  = kernelName example_codegen "a_MapPairsKernel_b" (example_function "c") 1 1.
Proof. reflexivity. Qed.

(** ** The index initializer *)

Section IndexInitializer.

Context {UserType : Type}.
Variable cg : CodeGen UserType.

Lemma index_separator st :
  indexInitializer (separator st) = indexInitializer st.
Proof. unfold separator. now destruct (first st). Qed.

Lemma index_elwise_loop (mapFunc : UserFunction.t UserType) ps :
  forall st, indexInitializer (fold_left (elwise_step mapFunc) ps st)
             = indexInitializer st.
Proof.
  induction ps as [|p ps IH]; intros st; simpl; [reflexivity|].
  rewrite IH. unfold elwise_step. simpl.
  destruct (ctr (separator st) <? Varity mapFunc)%N; simpl;
    apply index_separator.
Qed.

Lemma index_container_loop ps :
  forall st, indexInitializer (fold_left (container_step cg) ps st)
             = indexInitializer st.
Proof.
  induction ps as [|p ps IH]; intros st; simpl; [reflexivity|].
  rewrite IH. unfold container_step, container_case. simpl.
  destruct (containerType p); simpl; apply index_separator.
Qed.

Lemma index_scalar_loop ps :
  forall st, indexInitializer (fold_left scalar_step ps st)
             = indexInitializer st.
Proof.
  induction ps as [|p ps IH]; intros st; simpl; [reflexivity|].
  rewrite IH. unfold scalar_step. simpl. apply index_separator.
Qed.

Lemma indexInitializer_collect (mapFunc : UserFunction.t UserType) :
  indexInitializer (collect cg mapFunc)
  = if indexed1D mapFunc then index1_initializer
    else if indexed2D mapFunc then index2_initializer
    else "".
Proof.
  unfold collect.
  rewrite index_scalar_loop, index_container_loop, index_elwise_loop.
  unfold index_step.
  now destruct (indexed1D mapFunc), (indexed2D mapFunc).
Qed.

End IndexInitializer.

Lemma eval_index2 (w base i : Z) :
  w <> 0%Z ->
  eval_fields (kernel_env w base i) (index_fields index2_decl)
  = Some [("row", ((base + i) mod size_t_modulus / w)%Z);
          ("col", ((base + i) mod size_t_modulus mod w)%Z)].
Proof.
  intros Hw. simpl. unfold kernel_env. simpl.
  apply Z.eqb_neq in Hw. now rewrite Hw.
Qed.

(** C7. In row-column mode the generator emits the initializer
    [index2_t index = { .row = (base + i) / w, .col = (base + i) % w };].
    For a row width [w] other than zero it yields the row [(base + i) / w]
    and the column [(base + i) % w], the sum being taken in [size_t]; with
    [w = 4], [base = 0] and [i = 5] the row is 1 and the column is 1. *)
Theorem rowcol_index_initializer :
  (forall (UserType : Type) (cg : CodeGen UserType)
          (mapFunc : UserFunction.t UserType),
      indexed1D mapFunc = false -> indexed2D mapFunc = true ->
      indexInitializer (collect cg mapFunc) = print_decl index2_decl)
  /\ print_decl index2_decl
     = "index2_t index = { .row = (base + i) / w, .col = (base + i) % w };"
  /\ (forall w base i : Z,
        is_size_t w -> is_size_t base -> is_size_t i -> w <> 0%Z ->
        eval_fields (kernel_env w base i) (index_fields index2_decl)
        = Some [("row", ((base + i) mod size_t_modulus / w)%Z);
                ("col", ((base + i) mod size_t_modulus mod w)%Z)])
  /\ (forall w base i : Z,
        is_size_t w -> is_size_t base -> is_size_t i -> w <> 0%Z ->
        (base + i < size_t_modulus)%Z ->
        eval_fields (kernel_env w base i) (index_fields index2_decl)
        = Some [("row", ((base + i) / w)%Z); ("col", ((base + i) mod w)%Z)])
  /\ eval_fields (kernel_env 4 0 5) (index_fields index2_decl)
     = Some [("row", 1%Z); ("col", 1%Z)].
Proof.
  split; [|split; [|split; [|split]]].
  - intros UserType cg mapFunc H1 H2.
    rewrite indexInitializer_collect, H1, H2. reflexivity.
  - reflexivity.
  - intros w base i _ _ _ Hw. now apply eval_index2.
  - intros w base i _ [Hb _] [Hi _] Hw Hsum.
    rewrite eval_index2 by assumption.
    rewrite Z.mod_small by lia. reflexivity.
  - reflexivity.
Qed.

Lemma rowcol_index_initializer_witness :
  indexInitializer
    (collect example_codegen
       (UserFunction.mk "f" "float" false true false 1%N
          [mkParam "a" "float"; mkParam "b" "float"] [] [] []))
  = "index2_t index = { .row = (base + i) / w, .col = (base + i) % w };"
  /\ eval_fields (kernel_env 4 0 5) (index_fields index2_decl)
     = Some [("row", ((0 + 5) / 4)%Z); ("col", ((0 + 5) mod 4)%Z)].
Proof.
  destruct rowcol_index_initializer as [Htext [Hprint [_ [Heval _]]]].
  split.
  - rewrite <- Hprint. apply Htext; reflexivity.
  - apply Heval; unfold is_size_t, size_t_modulus; lia.
Defined.

(** ** Order of the kernel source *)

Section SourceOrder.

Context {UserType : Type}.
Variable cg : CodeGen UserType.

Lemma sourceStream_layout UserConstants (mapFunc : UserFunction.t UserType) :
  sourceStream cg UserConstants mapFunc
  = (if requiresDoublePrecision mapFunc then pragma_fp64 else "")
    +++ proxy_definitions cg (containerProxyTypes (collect cg mapFunc))
    +++ constant_definitions UserConstants
    +++ user_type_definitions cg (ReferencedUTs mapFunc)
    +++ KernelPredefinedTypes_CL cg
    +++ generateUserFunctionCode_CL cg mapFunc
    +++ MapPairsKernelTemplate_CL.
Proof.
  unfold sourceStream, source_fragments, proxy_definitions,
    constant_definitions, user_type_definitions.
  rewrite !map_app, !str_app, !map_map. f_equal.
  now destruct (requiresDoublePrecision mapFunc).
Qed.

(** With a single container parameter, a matrix, the proxy loops write
    the matrix proxy of its element type and nothing else. *)
Lemma single_matrix_proxy (mapFunc : UserFunction.t UserType)
  (p : UserFunction.RandomAccessParam) :
  anyContainerParams mapFunc = [p] -> containerType p = Matrix ->
  proxy_definitions cg (containerProxyTypes (collect cg mapFunc))
  = generateOpenCLMatrixProxy cg (resolvedTypeName p).
Proof.
  intros Hp Hk. unfold proxy_definitions, proxy_fragments, collect.
  rewrite types_scalar_loop, Hp. cbn [fold_left].
  rewrite types_container_step, types_elwise_loop, types_index_step, Hk.
  reflexivity.
Qed.

End SourceOrder.

(** C8. When the function requires double precision, the kernel source
    starts with the directive that enables it; after the directive come the
    container proxy definitions, then the user constants, then the user
    types, then the predefined types and the user function, and last the
    kernel itself.  With a single container parameter, a matrix, the source
    is the directive, then the matrix proxy definition, then the rest, which
    ends with the kernel. *)
Theorem double_precision_pragma_first :
  forall (UserType : Type) (cg : CodeGen UserType)
         (UserConstants : list (VarDecl * UserConstant.t))
         (mapFunc : UserFunction.t UserType),
    requiresDoublePrecision mapFunc = true ->
    sourceStream cg UserConstants mapFunc
    = "#pragma OPENCL EXTENSION cl_khr_fp64: enable" +++ newline
      +++ proxy_definitions cg (containerProxyTypes (collect cg mapFunc))
      +++ constant_definitions UserConstants
      +++ user_type_definitions cg (ReferencedUTs mapFunc)
      +++ KernelPredefinedTypes_CL cg
      +++ generateUserFunctionCode_CL cg mapFunc
      +++ MapPairsKernelTemplate_CL
    /\ (forall p : UserFunction.RandomAccessParam,
          anyContainerParams mapFunc = [p] -> containerType p = Matrix ->
          sourceStream cg UserConstants mapFunc
          = "#pragma OPENCL EXTENSION cl_khr_fp64: enable" +++ newline
            +++ generateOpenCLMatrixProxy cg (resolvedTypeName p)
            +++ constant_definitions UserConstants
            +++ user_type_definitions cg (ReferencedUTs mapFunc)
            +++ KernelPredefinedTypes_CL cg
            +++ generateUserFunctionCode_CL cg mapFunc
            +++ MapPairsKernelTemplate_CL).
Proof.
  intros UserType cg UserConstants mapFunc Hfp.
  pose proof (sourceStream_layout cg UserConstants mapFunc) as H.
  rewrite Hfp in H. unfold pragma_fp64 in H. rewrite append_assoc in H.
  split; [exact H|].
  intros p Hp Hk. rewrite H.
  now rewrite (single_matrix_proxy cg mapFunc p Hp Hk).
Qed.

Lemma double_precision_pragma_first_witness :
  requiresDoublePrecision double_precision_matrix_function = true
  /\ sourceStream example_codegen [] double_precision_matrix_function
     = str ["#pragma OPENCL EXTENSION cl_khr_fp64: enable"; newline;
            "/* matrix proxy double */"; newline;
            "/* predefined types */"; newline;
            "/* user function f */"; newline;
            MapPairsKernelTemplate_CL].
Proof.
  split; [reflexivity|].
  destruct (double_precision_pragma_first unit example_codegen []
              double_precision_matrix_function eq_refl) as [_ H].
  rewrite (H (mkRandomAccessParam (mkParam "m" "double") Matrix)
             eq_refl eq_refl).
  reflexivity.
Defined.

(** ** The user constants *)

Section Constants.

Context {UserType : Type}.
Variable cg : CodeGen UserType.

Lemma constants_app (a b : list (@Fragment UserType)) :
  emitted_constants (a ++ b) = emitted_constants a ++ emitted_constants b.
Proof. apply flat_map_app. Qed.

Lemma constants_of_proxies (k : ContainerType) (l : list string) :
  emitted_constants (map (@FProxy UserType k) l) = [].
Proof. induction l as [|t l IH]; simpl; [reflexivity | exact IH]. Qed.

Lemma constants_of_defines (l : Registry) :
  emitted_constants (map (fun pair => @FDefine UserType (snd pair)) l)
  = map snd l.
Proof. induction l as [|c l IH]; simpl; [reflexivity | now rewrite IH]. Qed.

Lemma constants_of_user_types (l : list UserType) :
  emitted_constants (map FUserType l) = [].
Proof. induction l as [|c l IH]; simpl; [reflexivity | exact IH]. Qed.

Lemma emitted_constants_source (UserConstants : Registry)
  (mapFunc : UserFunction.t UserType) :
  emitted_constants (source_fragments cg UserConstants mapFunc)
  = map snd UserConstants.
Proof.
  unfold source_fragments, proxy_fragments.
  rewrite !constants_app, !constants_of_proxies, constants_of_defines,
    constants_of_user_types.
  destruct (requiresDoublePrecision mapFunc); simpl;
    now rewrite app_nil_r.
Qed.

End Constants.

(** Two constants, [A] discovered before [B], in a table that visits the
    entry inserted last first: [B] is defined before [A]. *)
Lemma constants_not_in_discovery_order : ~ constants_in_discovery_order.
Proof.
  intros H.
  assert (Hrev : traversal_ok (@rev (VarDecl * UserConstant.t))).
  { intros l. apply Permutation_sym, Permutation_rev. }
  specialize (H unit example_codegen _ Hrev two_constants
                (example_function "f")).
  vm_compute in H. discriminate H.
Qed.

(** C9, as the code has it.  Every constant of the registry is written to
    the kernel source as one line [#define name (definition) // type], once
    for each entry, in the order in which the table is traversed; the
    constant lines follow the proxy definitions and precede the user types
    and the kernel. *)
Theorem user_constants_defined_in_table_order :
  forall (UserType : Type) (cg : CodeGen UserType) (visit : Traversal)
         (discovered : Registry) (mapFunc : UserFunction.t UserType),
    traversal_ok visit ->
    let frs := source_fragments cg (visit discovered) mapFunc in
    emitted_constants frs = map snd (visit discovered)
    /\ Permutation (emitted_constants frs) (map snd discovered)
    /\ (forall c, In c (map snd discovered) -> In (FDefine c) frs)
    /\ (forall c, render cg (FDefine c)
                  = str ["#define "; UserConstant.name c; " (";
                         UserConstant.definition c; ") // ";
                         UserConstant.typeName c; newline])
    /\ sourceStream cg (visit discovered) mapFunc
       = (if requiresDoublePrecision mapFunc then pragma_fp64 else "")
         +++ proxy_definitions cg (containerProxyTypes (collect cg mapFunc))
         +++ str (map (fun c => render cg (FDefine c))
                    (map snd (visit discovered)))
         +++ user_type_definitions cg (ReferencedUTs mapFunc)
         +++ KernelPredefinedTypes_CL cg
         +++ generateUserFunctionCode_CL cg mapFunc
         +++ MapPairsKernelTemplate_CL.
Proof.
  intros UserType cg visit discovered mapFunc Hok frs.
  assert (E : emitted_constants frs = map snd (visit discovered))
    by apply emitted_constants_source.
  split; [exact E|]. split; [|split; [|split]].
  - rewrite E. apply Permutation_map, Hok.
  - intros c Hc.
    assert (Hin : In c (emitted_constants frs)).
    { rewrite E. apply (Permutation_in c (Permutation_sym
        (Permutation_map snd (Hok discovered))) Hc). }
    unfold emitted_constants in Hin. apply in_flat_map in Hin.
    destruct Hin as [fr [Hfr Hc']].
    destruct fr; simpl in Hc'; try contradiction.
    destruct Hc' as [-> | []]. exact Hfr.
  - reflexivity.
  - rewrite sourceStream_layout. unfold constant_definitions.
    now rewrite map_map.
Qed.

Lemma user_constants_defined_in_table_order_witness :
  emitted_constants
    (source_fragments example_codegen (rev two_constants)
       (example_function "f"))
  = [UserConstant.mk "B" "2" "int"; UserConstant.mk "A" "1" "int"]
  /\ sourceStream example_codegen (rev two_constants) (example_function "f")
     = str ["#define B (2) // int"; newline; "#define A (1) // int"; newline;
            "/* predefined types */"; newline;
            "/* user function f */"; newline;
            MapPairsKernelTemplate_CL].
Proof.
  assert (Hrev : traversal_ok (@rev (VarDecl * UserConstant.t))).
  { intros l. apply Permutation_sym, Permutation_rev. }
  destruct (user_constants_defined_in_table_order unit example_codegen
              (@rev (VarDecl * UserConstant.t)) two_constants
              (example_function "f") Hrev) as [H1 [_ [_ [_ H2]]]].
  split.
  - exact H1.
  - rewrite H2. reflexivity.
Defined.

(** ** The wrapper class at run time *)

Section WrapperRuntime.

Import Wrapper.

Variables Device cl_program : Type.
Variable buildProgram : Device -> string -> cl_program.
Variable clCreateKernel : cl_program -> string -> cl_kernel * Z.
Variable source : string.
Variable kernel_name : string.

Lemma length_store l k v : List.length (store l k v) = List.length l.
Proof.
  revert k. induction l as [|x l IH]; intros [|k]; simpl;
    try reflexivity. now rewrite IH.
Qed.

Lemma nth_store_same l k v d :
  (k < List.length l)%nat -> nth k (store l k v) d = v.
Proof.
  revert k. induction l as [|x l IH]; intros [|k]; simpl; intros H;
    try lia; try reflexivity. apply IH. lia.
Qed.

Lemma nth_store_other l k j v d :
  j <> k -> nth j (store l k v) d = nth j l d.
Proof.
  revert k j. induction l as [|x l IH]; intros [|k] [|j]; simpl;
    intros H; try reflexivity; try congruence. apply IH. congruence.
Qed.

(** The build loop within the capacity of the table. *)
Lemma build_all_within (devices : list Device) :
  forall counter st,
    List.length (arr st) = capacity ->
    (counter + List.length devices <= capacity)%nat ->
    build_all buildProgram clCreateKernel source kernel_name devices counter st
    <> OutOfBounds
    /\ ((forall d, In d devices ->
                   builds buildProgram clCreateKernel source kernel_name d) ->
        exists st',
          build_all buildProgram clCreateKernel source kernel_name
            devices counter st = Returns st'
          /\ initialized st' = initialized st
          /\ List.length (arr st') = capacity
          /\ (forall k d, nth_error devices k = Some d ->
                 nth (counter + k) (arr st') nullptr
                 = fst (create buildProgram clCreateKernel source
                          kernel_name d))
          /\ (forall j, (j < counter
                         \/ counter + List.length devices <= j)%nat ->
                 nth j (arr st') nullptr = nth j (arr st) nullptr)).
Proof.
  induction devices as [|device rest IH]; intros counter st Hlen Hcap.
  - split; [discriminate|]. intros _. exists st.
    repeat split; try assumption.
    intros k d Hk. destruct k; discriminate.
  - simpl in Hcap. simpl. unfold builds.
    destruct (create buildProgram clCreateKernel source kernel_name device)
      as [kernel err] eqn:Hcreate.
    unfold CL_CHECK_ERROR.
    assert (Hlt : (counter <? capacity)%nat = true)
      by (apply Nat.ltb_lt; lia).
    unfold kernels. rewrite Hlt.
    set (st1 := mkStatics (store (arr st) counter kernel)
                  (initialized st)).
    assert (Hlen1 : List.length (arr st1) = capacity)
      by (simpl; now rewrite length_store).
    destruct (IH (S counter) st1 Hlen1 ltac:(lia)) as [Hin Hok].
    split.
    + destruct (err =? CL_SUCCESS)%Z; [exact Hin | discriminate].
    + intros Hall.
      assert (Herr : err = CL_SUCCESS).
      { specialize (Hall device (or_introl eq_refl)).
        rewrite Hcreate in Hall. exact Hall. }
      rewrite Herr. simpl.
      destruct Hok as [st' [Hrun [Hi [Hl [Hnew Hold]]]]].
      { intros d Hd. apply Hall. now right. }
      exists st'. repeat split; try assumption.
      * intros [|k] d Hk.
        -- injection Hk as <-. rewrite Nat.add_0_r.
           rewrite Hold by lia. subst st1. simpl.
           rewrite nth_store_same by lia. now rewrite Hcreate.
        -- replace (counter + S k)%nat with (S counter + k)%nat by lia.
           now apply Hnew.
      * intros j Hj. rewrite Hold by lia. subst st1. simpl.
        apply nth_store_other. lia.
Qed.

(** The build loop with more devices than the table holds. *)
Lemma build_all_beyond (devices : list Device) :
  forall counter st,
    (counter <= capacity)%nat ->
    (capacity < counter + List.length devices)%nat ->
    (forall d, In d devices ->
               builds buildProgram clCreateKernel source kernel_name d) ->
    build_all buildProgram clCreateKernel source kernel_name devices counter st
    = OutOfBounds.
Proof.
  induction devices as [|device rest IH]; intros counter st Hc Hcap Hall.
  - simpl in Hcap. lia.
  - simpl in Hcap. simpl.
    pose proof (Hall device (or_introl eq_refl)) as Hb. unfold builds in Hb.
    destruct (create buildProgram clCreateKernel source kernel_name device)
      as [kernel err].
    simpl in Hb. subst err.
    simpl. unfold kernels.
    destruct (counter <? capacity)%nat eqn:Hlt; [|reflexivity].
    apply Nat.ltb_lt in Hlt.
    apply IH; [lia | lia |]. intros d Hd. apply Hall. now right.
Qed.

End WrapperRuntime.

(** C10. With at most eight registered devices, the first call of
    [initialize] never indexes the table outside its eight entries; when
    every kernel builds, it returns with the handle of device [k] stored at
    ordinal [k] for each of the devices, the other entries untouched and the
    flag set, and every later call returns at once with the statics
    unchanged.  The bound is needed: [kernels] stores at any ordinal it is
    given without a test, so an ordinal of eight or more is out of bounds,
    which is what happens in [initialize] with more than eight devices. *)
Theorem initialize_idempotent_within_capacity :
  forall (Device cl_program : Type)
         (buildProgram : Device -> string -> cl_program)
         (clCreateKernel : cl_program -> string -> Wrapper.cl_kernel * Z)
         (source kernel_name : string),
    let initialize :=
      Wrapper.initialize buildProgram clCreateKernel
        source kernel_name in
    let create :=
      Wrapper.create buildProgram clCreateKernel
        source kernel_name in
    let builds :=
      Wrapper.builds buildProgram clCreateKernel
        source kernel_name in
    (forall (devices : list Device) (st : Wrapper.Statics),
        List.length (Wrapper.arr st) = Wrapper.capacity ->
        Wrapper.initialized st = false ->
        (List.length devices <= Wrapper.capacity)%nat ->
        initialize devices st <> Wrapper.OutOfBounds
        /\ ((forall d, In d devices -> builds d) ->
            exists st',
              initialize devices st = Wrapper.Returns st'
              /\ Wrapper.initialized st' = true
              /\ List.length (Wrapper.arr st') = Wrapper.capacity
              /\ (forall k d, nth_error devices k = Some d ->
                    nth k (Wrapper.arr st') Wrapper.nullptr = fst (create d))
              /\ (forall j, (List.length devices <= j)%nat ->
                    nth j (Wrapper.arr st') Wrapper.nullptr
                    = nth j (Wrapper.arr st) Wrapper.nullptr)
              /\ (forall devices',
                    initialize devices' st' = Wrapper.Returns st')))
    /\ (forall (st : Wrapper.Statics) (deviceID : nat)
               (kernel : Wrapper.cl_kernel),
          (Wrapper.capacity <= deviceID)%nat ->
          Wrapper.kernels st deviceID (Some kernel) = Wrapper.OutOfBounds)
    /\ (forall (devices : list Device) (st : Wrapper.Statics),
          Wrapper.initialized st = false ->
          (Wrapper.capacity < List.length devices)%nat ->
          (forall d, In d devices -> builds d) ->
          initialize devices st = Wrapper.OutOfBounds).
Proof.
  intros Device cl_program buildProgram clCreateKernel source kernel_name
    initialize create builds.
  split; [|split].
  - intros devices st Hlen Hinit Hcap.
    destruct (build_all_within Device cl_program buildProgram
                clCreateKernel source kernel_name devices 0 st Hlen
                ltac:(simpl; lia)) as [Hin Hok].
    subst initialize. unfold Wrapper.initialize. rewrite Hinit. split.
    + destruct (Wrapper.build_all _ _ _ _ devices 0 st);
        [discriminate | now apply Hin | discriminate].
    + intros Hall. destruct (Hok Hall) as [st' [Hrun [_ [Hl [Hnew Hold]]]]].
      rewrite Hrun. eexists. split; [reflexivity|]. simpl.
      repeat split.
      * exact Hl.
      * intros k d Hk. exact (Hnew k d Hk).
      * intros j Hj. apply Hold. right. simpl. lia.
  - intros st deviceID kernel Hid. unfold Wrapper.kernels.
    destruct (deviceID <? Wrapper.capacity)%nat eqn:Hlt; [|reflexivity].
    apply Nat.ltb_lt in Hlt. lia.
  - intros devices st Hinit Hcap Hall.
    subst initialize. unfold Wrapper.initialize. rewrite Hinit.
    rewrite (build_all_beyond Device cl_program buildProgram
               clCreateKernel source kernel_name devices 0 st);
      [reflexivity | lia | simpl; lia | exact Hall].
Qed.

Lemma initialize_idempotent_within_capacity_witness :
  exists st',
    Wrapper.initialize example_buildProgram example_clCreateKernel
      "" "k" [0; 1; 2]%nat Wrapper.at_program_start = Wrapper.Returns st'
    /\ Wrapper.initialized st' = true
    /\ List.length (Wrapper.arr st') = Wrapper.capacity
    /\ (forall k d, nth_error [0; 1; 2]%nat k = Some d ->
          nth k (Wrapper.arr st') Wrapper.nullptr = (100 + Z.of_nat d)%Z)
    /\ (forall j, (3 <= j)%nat ->
          nth j (Wrapper.arr st') Wrapper.nullptr
          = nth j (Wrapper.arr Wrapper.at_program_start) Wrapper.nullptr)
    /\ (forall devices',
          Wrapper.initialize example_buildProgram
            example_clCreateKernel "" "k" devices' st'
          = Wrapper.Returns st').
Proof.
  destruct (initialize_idempotent_within_capacity nat nat
              example_buildProgram example_clCreateKernel "" "k") as [H _].
  destruct (H [0; 1; 2]%nat Wrapper.at_program_start eq_refl eq_refl
              ltac:(unfold Wrapper.capacity; simpl; lia)) as [_ Hok].
  apply Hok. intros d _. reflexivity.
Defined.

(** The table after the first call, computed. *)
Example initialize_three_devices :
  Wrapper.initialize example_buildProgram example_clCreateKernel
    "" "k" [0; 1; 2]%nat Wrapper.at_program_start
  = Wrapper.Returns
      (Wrapper.mkStatics [100; 101; 102; 0; 0; 0; 0; 0]%Z true).
Proof. reflexivity. Qed.

(** Nine devices: the ninth store is outside the table. *)
Example initialize_nine_devices :
  Wrapper.initialize example_buildProgram example_clCreateKernel
    "" "k" (seq 0 9) Wrapper.at_program_start
  = Wrapper.OutOfBounds.
Proof. reflexivity. Qed.

(** ** The grid-stride loop *)

Section GridStrideFacts.

Variable modulus : Z.
Variables n gridSize : Z.

Lemma worker_loop_more_fuel (fuel : nat) :
  forall fuel' i l, (fuel <= fuel')%nat ->
    worker_loop modulus n gridSize fuel i = Some l ->
    worker_loop modulus n gridSize fuel' i = Some l.
Proof.
  induction fuel as [|fuel IH]; intros fuel' i l Hle H; [discriminate|].
  destruct fuel' as [|fuel']; [lia|]. simpl in *.
  destruct (i <? n)%Z; [|exact H].
  destruct (worker_loop modulus n gridSize fuel
              ((i + gridSize) mod modulus)%Z) as [l0|] eqn:E;
    [|discriminate].
  rewrite (IH fuel' _ l0 ltac:(lia) E). exact H.
Qed.

Lemma visits_functional (g : Z) (l l' : list Z) :
  visits modulus n gridSize g l -> visits modulus n gridSize g l' -> l = l'.
Proof.
  intros [f H] [f' H'].
  pose proof (worker_loop_more_fuel f (Nat.max f f') g l
                (Nat.le_max_l _ _) H) as E.
  pose proof (worker_loop_more_fuel f' (Nat.max f f') g l'
                (Nat.le_max_r _ _) H') as E'.
  congruence.
Qed.

Hypothesis gridSize_pos : (0 < gridSize)%Z.
Hypothesis no_wrap : (n + gridSize <= modulus)%Z.

(** Without wrap-around, the worker started at [i] runs the body at the
    indices [i, i + gridSize, i + 2 gridSize, ...] below [n]. *)
Lemma worker_loop_stride (fuel : nat) :
  forall i, (0 <= i)%Z -> (Z.to_nat (n - i) < fuel)%nat ->
    exists l, worker_loop modulus n gridSize fuel i = Some l
              /\ NoDup l
              /\ forall j, In j l
                   <-> (i <= j < n)%Z /\ ((j - i) mod gridSize = 0)%Z.
Proof.
  induction fuel as [|fuel IH]; intros i Hi Hfuel; [lia|]. simpl.
  destruct (i <? n)%Z eqn:Hlt.
  - apply Z.ltb_lt in Hlt.
    rewrite (Z.mod_small (i + gridSize) modulus) by lia.
    destruct (IH (i + gridSize)%Z ltac:(lia) ltac:(lia))
      as [l [Hrun [Hnd Hin]]].
    rewrite Hrun. simpl. exists (i :: l). split; [reflexivity|]. split.
    + constructor; [|exact Hnd]. intros Hc. apply Hin in Hc. lia.
    + intros j. simpl. rewrite Hin. split.
      * intros [<- | [Hr Hm]].
        -- split; [lia|]. now rewrite Z.sub_diag.
        -- split; [lia|].
           replace (j - i)%Z with ((j - (i + gridSize)) + 1 * gridSize)%Z
             by lia.
           now rewrite Z.mod_add by lia.
      * intros [Hr Hm].
        destruct (Z.eq_dec i j) as [E | Hne]; [now left|right].
        apply Z.mod_divide in Hm; [|lia]. destruct Hm as [q Hq].
        assert (1 <= q)%Z by nia.
        split; [nia|].
        replace (j - (i + gridSize))%Z with ((q - 1) * gridSize)%Z by lia.
        apply Z.mod_mul. lia.
  - apply Z.ltb_ge in Hlt. exists []. split; [reflexivity|].
    split; [constructor|]. intros j. simpl. split; [tauto | lia].
Qed.

Lemma worker_visits (g : Z) :
  (0 <= g < gridSize)%Z ->
  exists l, visits modulus n gridSize g l /\ NoDup l
            /\ forall j, In j l <-> (0 <= j < n)%Z /\ (j mod gridSize = g)%Z.
Proof.
  intros Hg.
  destruct (worker_loop_stride (S (Z.to_nat (n - g))) g ltac:(lia)
              ltac:(lia)) as [l [Hrun [Hnd Hin]]].
  exists l. split; [now exists (S (Z.to_nat (n - g)))|].
  split; [exact Hnd|].
  intros j. rewrite Hin. split.
  - intros [Hr Hm]. split; [lia|].
    apply Z.mod_divide in Hm; [|lia]. destruct Hm as [q Hq].
    replace j with (g + q * gridSize)%Z by lia.
    rewrite Z.mod_add by lia. apply Z.mod_small. lia.
  - intros [Hr Hm]. subst g.
    pose proof (Z.mod_pos_bound j gridSize gridSize_pos).
    pose proof (Z.div_mod j gridSize ltac:(lia)).
    pose proof (Z.mod_le j gridSize ltac:(lia) gridSize_pos).
    split; [lia|].
    replace (j - j mod gridSize)%Z with ((j / gridSize) * gridSize)%Z
      by lia.
    apply Z.mod_mul. lia.
Qed.

Lemma grid_stride_covers : covers_exactly_once modulus n gridSize.
Proof.
  split.
  - intros g Hg. destruct (worker_visits g Hg) as [l [Hv [Hnd Hin]]].
    exists l. split; [exact Hv|]. split; [exact Hnd|].
    intros i Hi. apply Hin in Hi. lia.
  - intros i Hi.
    pose proof (Z.mod_pos_bound i gridSize gridSize_pos) as Hb.
    exists (i mod gridSize)%Z. split; [exact Hb|]. split.
    + destruct (worker_visits _ Hb) as [l [Hv [_ Hin]]].
      exists l. split; [exact Hv|]. apply Hin. now split.
    + intros g' Hg' [l' [Hv' Hin']].
      destruct (worker_visits _ Hg') as [l [Hv [_ Hin]]].
      rewrite (visits_functional g' l' l Hv' Hv) in Hin'.
      apply Hin in Hin'. symmetry. apply Hin'.
Qed.

End GridStrideFacts.

(** Two elements and [2^64 - 1] workers: worker 1 runs the body at index 1,
    its index wraps to 0, and it runs the body at index 0, which worker 0
    has as well. *)
Lemma grid_stride_wraps_around :
  ~ covers_exactly_once size_t_modulus 2 (size_t_modulus - 1).
Proof.
  intros [_ H].
  destruct (H 0%Z ltac:(lia)) as [g [_ [_ Huniq]]].
  assert (H0 : 0%Z = g).
  { apply Huniq; [unfold size_t_modulus; lia|].
    exists [0%Z]. split; [now exists 2%nat | now left]. }
  assert (H1 : 1%Z = g).
  { apply Huniq; [unfold size_t_modulus; lia|].
    exists [1%Z; 0%Z]. split; [now exists 3%nat | right; now left]. }
  lia.
Qed.

(** C2, as the code has it.  When the element count and the worker count
    together do not exceed the number of values of [size_t], so that no
    index wraps, every worker [g] below the worker count terminates having
    run the body exactly at the indices below [n] that are congruent to [g]
    modulo the worker count, each once; hence every index in [0, n) is
    visited by exactly one worker, exactly once, and no other index is
    visited. *)
Theorem grid_stride_coverage :
  forall modulus n W : Z,
    (0 <= n)%Z -> (0 < W)%Z -> (n + W <= modulus)%Z ->
    covers_exactly_once modulus n W
    /\ (forall g, (0 <= g < W)%Z ->
          exists l, visits modulus n W g l /\ NoDup l
                    /\ forall j, In j l
                         <-> (0 <= j < n)%Z /\ (j mod W = g)%Z).
Proof.
  intros modulus n W _ HW Hno. split.
  - now apply grid_stride_covers.
  - intros g Hg. now apply worker_visits.
Qed.

Lemma grid_stride_coverage_witness :
  covers_exactly_once size_t_modulus 10 4
  /\ worker_loop size_t_modulus 10 4 4 1 = Some [1; 5; 9]%Z.
Proof.
  split.
  - apply (grid_stride_coverage size_t_modulus 10 4);
      unfold size_t_modulus; lia.
  - reflexivity.
Defined.

(** ** Substitution in a text of literals and inserted texts *)















Section Substitution.

Variable env : nat -> string.
Hypothesis env_free : forall i, occurrences slot_marker (env i) = 0.




End Substitution.

(** The twelve substitutions of lines 232-243 on the wrapper template. *)
Section Assembly.

Variables preamble result_type kernel_name function_name kernel_params
  host_params map_params index_initializer class_name kernel_args proxies
  proxies_inner : string.

Hypothesis texts_free :
  Forall (fun text => occurrences slot_marker text = 0)
    [preamble; result_type; kernel_name; function_name; kernel_params;
     host_params; map_params; index_initializer; class_name; kernel_args;
     proxies; proxies_inner].


End Assembly.

(** ** The assembled artifact *)

Section Artifact.

Context {UserType : Type}.
Variable cg : CodeGen UserType.





End Artifact.






(** The condition on the inserted texts is needed: a function whose unique
    name is a slot name that is replaced after the class name gives an
    artifact whose class is not named after the kernel. *)
Example slot_name_as_unique_name :
  let mapFunc := example_function "SKEPU_KERNEL_ARGS" in
  slot_free example_codegen "prog" [] mapFunc 2 3 = false
  /\ declares_wrapper
       (finalSource example_codegen "prog" [] mapFunc 2 3)
       (className (kernelName example_codegen "prog" mapFunc 2 3))
     = false.
Proof. vm_compute. split; reflexivity. Qed.

(** ** The artifact of a whole run

    [createMapPairsKernelProgram_CL] run on [example_row_function]: the
    file is named after the kernel, declares the wrapper class, and its
    kernel initializes the vector proxy before the loop and the index and
    the row proxy inside it, before the call of the user function. *)

Example artifact_of_example_row_function :
  let run := createMapPairsKernelProgram_CL example_codegen "prog" []
               example_row_function 1 1 "out" empty_writable in
  let text := finalSource example_codegen "prog" [] example_row_function
                1 1 in
  let row := proxy_initializer example_codegen
               (mkRandomAccessParam (mkParam "m" "float") MatRow) in
  let vec := proxy_initializer example_codegen
               (mkRandomAccessParam (mkParam "v" "int") Vector) in
  fst run = "prog_MapPairsKernel_g_Varity_1_Harity_1"
  /\ contents (snd run)
       "out/prog_MapPairsKernel_g_Varity_1_Harity_1_cl_source.inl"
     = Some text
  /\ in_order
       ["class CLWrapperClass_prog_MapPairsKernel_g_Varity_1_Harity_1";
        "__kernel void prog_MapPairsKernel_g_Varity_1_Harity_1(";
        vec;
        "while (i < n)";
        "index2_t index = { .row = (base + i) / w, .col = (base + i) % w };";
        row;
        "output[i] = g(index, a[i / Hsize], b[i % Hsize], m, v, s);";
        "i += gridSize;"]
       0 text = true
  /\ occurrences vec text = 1
  /\ occurrences row text = 1
  /\ occurrences "while (i < n)" text = 1
  /\ occurrences "SKEPU_" text = 0.
Proof. vm_compute. repeat split. Qed.

(** * Part III: further properties of the generator and of the driver *)

(** ** The three parameter lists *)

Lemma listed_app (a b : list string) : listed (a ++ b) = listed a +++ listed b.
Proof. unfold listed. now rewrite map_app, str_app. Qed.

Lemma listed_cons (x : string) (l : list string) :
  listed (x :: l) = x +++ ", " +++ listed l.
Proof.
  change (x :: l) with ([x] ++ l). rewrite listed_app.
  unfold listed at 1. unfold str. simpl. now rewrite append_assoc.
Qed.

Lemma listed_nil : listed [] = "".
Proof. reflexivity. Qed.

Lemma listed_flat_map_cons {A} (f : A -> list string) (x : A) (l : list A) :
  listed (flat_map f (x :: l)) = listed (f x) +++ listed (flat_map f l).
Proof. simpl. apply listed_app. Qed.

Section ParameterLists.

Context {UserType : Type}.
Variable cg : CodeGen UserType.

Lemma lists_separator st : lists_of (separator st) = lists_of st.
Proof. unfold separator. now destruct (first st). Qed.

Lemma lists_index_step (mapFunc : UserFunction.t UserType) st :
  lists_of (index_step mapFunc st) = lists_of st.
Proof.
  unfold index_step. now destruct (indexed1D mapFunc), (indexed2D mapFunc).
Qed.

Ltac split_lists H :=
  unfold lists_of in H; injection H as ? ? ?.

Lemma lists_elwise_step (mapFunc : UserFunction.t UserType) st p :
  SSKernelParamList (elwise_step mapFunc st p)
  = SSKernelParamList st +++ listed (elwise_kernel_params p)
  /\ SSKernelArgs (elwise_step mapFunc st p)
     = SSKernelArgs st +++ listed (elwise_kernel_args p)
  /\ SSHostKernelParamList (elwise_step mapFunc st p)
     = SSHostKernelParamList st
       +++ str ["skepu::backend::DeviceMemPointer_CL<"; resolvedTypeName p;
                "> *"; name p] +++ ", ".
Proof.
  pose proof (lists_separator st) as H. split_lists H.
  unfold elwise_step, listed, elwise_kernel_params, elwise_kernel_args, str.
  destruct (ctr _ <? Varity mapFunc)%N; simpl;
    rewrite ?append_assoc; simpl; rewrite ?append_nil_r;
    repeat split; congruence.
Qed.

Lemma lists_scalar_step st p :
  SSKernelParamList (scalar_step st p)
  = SSKernelParamList st +++ listed (scalar_kernel_params p)
  /\ SSKernelArgs (scalar_step st p)
     = SSKernelArgs st +++ listed (scalar_kernel_args p)
  /\ SSHostKernelParamList (scalar_step st p)
     = SSHostKernelParamList st
       +++ str [resolvedTypeName p; " "; name p] +++ ", ".
Proof.
  pose proof (lists_separator st) as H. split_lists H.
  unfold scalar_step, listed, scalar_kernel_params, scalar_kernel_args, str.
  simpl. rewrite ?append_assoc; simpl; rewrite ?append_nil_r.
  repeat split; congruence.
Qed.

Lemma lists_container_step st (p : UserFunction.RandomAccessParam) :
  SSKernelParamList (container_step cg st p)
  = SSKernelParamList st +++ listed (container_kernel_params p)
  /\ SSKernelArgs (container_step cg st p)
     = SSKernelArgs st +++ listed (container_kernel_args p)
  /\ SSHostKernelParamList (container_step cg st p)
     = SSHostKernelParamList st
       +++ str [TypeNameHost cg p; " skepu_container_"; name p] +++ ", ".
Proof.
  pose proof (lists_separator st) as H. split_lists H.
  unfold container_step, container_case, listed, container_kernel_params,
    container_kernel_args, str.
  destruct (containerType p); simpl;
    rewrite ?append_assoc; simpl; rewrite ?append_nil_r;
    repeat split; congruence.
Qed.

End ParameterLists.

Section ParameterListsLoops.

Context {UserType : Type}.
Variable cg : CodeGen UserType.

Lemma lists_elwise_loop (mapFunc : UserFunction.t UserType) ps :
  forall st,
    SSKernelParamList (fold_left (elwise_step mapFunc) ps st)
    = SSKernelParamList st +++ listed (flat_map elwise_kernel_params ps)
    /\ SSKernelArgs (fold_left (elwise_step mapFunc) ps st)
       = SSKernelArgs st +++ listed (flat_map elwise_kernel_args ps)
    /\ SSHostKernelParamList (fold_left (elwise_step mapFunc) ps st)
       = SSHostKernelParamList st
         +++ listed (map (fun p : UserFunction.Param =>
               str ["skepu::backend::DeviceMemPointer_CL<";
                    resolvedTypeName p; "> *"; name p]) ps).
Proof.
  induction ps as [|p ps IH]; intros st.
  - simpl. rewrite listed_nil, !append_nil_r. repeat split; reflexivity.
  - cbn [fold_left]. destruct (IH (elwise_step mapFunc st p)) as [-> [-> ->]].
    destruct (lists_elwise_step mapFunc st p) as [-> [-> ->]].
    rewrite !listed_flat_map_cons. cbn [map]. rewrite listed_cons.
    rewrite !append_assoc. repeat split; reflexivity.
Qed.

Lemma lists_container_loop (ps : list UserFunction.RandomAccessParam) :
  forall st,
    SSKernelParamList (fold_left (container_step cg) ps st)
    = SSKernelParamList st +++ listed (flat_map container_kernel_params ps)
    /\ SSKernelArgs (fold_left (container_step cg) ps st)
       = SSKernelArgs st +++ listed (flat_map container_kernel_args ps)
    /\ SSHostKernelParamList (fold_left (container_step cg) ps st)
       = SSHostKernelParamList st
         +++ listed (map (fun p : UserFunction.RandomAccessParam =>
               str [TypeNameHost cg p; " skepu_container_"; name p]) ps).
Proof.
  induction ps as [|p ps IH]; intros st.
  - simpl. rewrite listed_nil, !append_nil_r. repeat split; reflexivity.
  - cbn [fold_left]. destruct (IH (container_step cg st p)) as [-> [-> ->]].
    destruct (lists_container_step cg st p) as [-> [-> ->]].
    rewrite !listed_flat_map_cons. cbn [map]. rewrite listed_cons.
    rewrite !append_assoc. repeat split; reflexivity.
Qed.

Lemma lists_scalar_loop (ps : list UserFunction.Param) :
  forall st,
    SSKernelParamList (fold_left scalar_step ps st)
    = SSKernelParamList st +++ listed (flat_map scalar_kernel_params ps)
    /\ SSKernelArgs (fold_left scalar_step ps st)
       = SSKernelArgs st +++ listed (flat_map scalar_kernel_args ps)
    /\ SSHostKernelParamList (fold_left scalar_step ps st)
       = SSHostKernelParamList st
         +++ listed (map (fun p : UserFunction.Param =>
               str [resolvedTypeName p; " "; name p]) ps).
Proof.
  induction ps as [|p ps IH]; intros st.
  - simpl. rewrite listed_nil, !append_nil_r. repeat split; reflexivity.
  - cbn [fold_left]. destruct (IH (scalar_step st p)) as [-> [-> ->]].
    destruct (lists_scalar_step st p) as [-> [-> ->]].
    rewrite !listed_flat_map_cons. cbn [map]. rewrite listed_cons.
    rewrite !append_assoc. repeat split; reflexivity.
Qed.

Lemma lists_collect (mapFunc : UserFunction.t UserType) :
  SSKernelParamList (collect cg mapFunc) = listed (kernel_params mapFunc)
  /\ SSKernelArgs (collect cg mapFunc) = listed (kernel_args mapFunc)
  /\ SSHostKernelParamList (collect cg mapFunc)
     = listed (host_params cg mapFunc).
Proof.
  unfold collect, kernel_params, kernel_args, host_params.
  destruct (lists_scalar_loop (anyScalarParams mapFunc)
    (fold_left (container_step cg) (anyContainerParams mapFunc)
       (fold_left (elwise_step mapFunc) (elwiseParams mapFunc)
          (index_step mapFunc initial_streams)))) as [-> [-> ->]].
  destruct (lists_container_loop (anyContainerParams mapFunc)
    (fold_left (elwise_step mapFunc) (elwiseParams mapFunc)
       (index_step mapFunc initial_streams))) as [-> [-> ->]].
  destruct (lists_elwise_loop mapFunc (elwiseParams mapFunc)
    (index_step mapFunc initial_streams)) as [-> [-> ->]].
  pose proof (lists_index_step mapFunc initial_streams) as H.
  unfold lists_of in H. injection H as -> -> ->.
  rewrite !listed_app. cbn [SSKernelParamList SSKernelArgs
    SSHostKernelParamList initial_streams].
  rewrite !append_assoc. repeat split; reflexivity.
Qed.

Lemma kernel_arity_elwise (ps : list UserFunction.Param) :
  List.length (flat_map elwise_kernel_params ps)
  = List.length (flat_map elwise_kernel_args ps).
Proof. induction ps as [|p ps IH]; simpl; [reflexivity | now rewrite IH]. Qed.

Lemma kernel_arity_scalar (ps : list UserFunction.Param) :
  List.length (flat_map scalar_kernel_params ps)
  = List.length (flat_map scalar_kernel_args ps).
Proof. induction ps as [|p ps IH]; simpl; [reflexivity | now rewrite IH]. Qed.

Lemma kernel_arity_container (ps : list UserFunction.RandomAccessParam) :
  List.length (flat_map container_kernel_params ps)
  = List.length (flat_map container_kernel_args ps).
Proof.
  induction ps as [|p ps IH]; [reflexivity|].
  cbn [flat_map]. rewrite !length_app, IH. f_equal.
  unfold container_kernel_params, container_kernel_args.
  now destruct (containerType p).
Qed.

End ParameterListsLoops.

(** X1. The kernel parameter list and the argument list of [setKernelArgs]
    are written in the same order, elementwise parameters, then container
    parameters, then scalars, every entry followed by a comma and a space;
    the host passes one argument for each kernel parameter: one for an
    elementwise parameter or a scalar, and for a container its data pointer
    followed by as many size arguments as the kernel declares for its
    kind. *)
Theorem kernel_arguments_match_parameters :
  forall (UserType : Type) (cg : CodeGen UserType)
         (mapFunc : UserFunction.t UserType),
    SSKernelParamList (collect cg mapFunc) = listed (kernel_params mapFunc)
    /\ SSKernelArgs (collect cg mapFunc) = listed (kernel_args mapFunc)
    /\ List.length (kernel_params mapFunc)
       = List.length (kernel_args mapFunc)
    /\ (forall p : UserFunction.RandomAccessParam,
          List.length (container_kernel_params p)
          = List.length (container_kernel_args p)
          /\ List.length (container_kernel_params p)
             = match containerType p with
               | Vector | MatRow => 2
               | Matrix => 3
               | Tensor3 | SparseMatrix => 4
               | Tensor4 => 5
               end).
Proof.
  intros UserType cg mapFunc.
  destruct (lists_collect cg mapFunc) as [H1 [H2 _]].
  split; [exact H1|]. split; [exact H2|]. split.
  - unfold kernel_params, kernel_args. rewrite !length_app.
    now rewrite kernel_arity_elwise, kernel_arity_container,
      kernel_arity_scalar.
  - intros p. unfold container_kernel_params, container_kernel_args.
    now destruct (containerType p).
Qed.

(** X2. The host function [map] of the wrapper gets one parameter for each
    parameter of the user function, in the order elementwise, container,
    scalar, every entry followed by a comma and a space; neither the index
    mode nor the shape changes the list. *)
Theorem host_parameters_one_per_parameter :
  forall (UserType : Type) (cg : CodeGen UserType)
         (mapFunc : UserFunction.t UserType),
    SSHostKernelParamList (collect cg mapFunc)
    = listed (host_params cg mapFunc)
    /\ List.length (host_params cg mapFunc)
       = (List.length (elwiseParams mapFunc)
          + List.length (anyContainerParams mapFunc)
          + List.length (anyScalarParams mapFunc))%nat.
Proof.
  intros UserType cg mapFunc.
  destruct (lists_collect cg mapFunc) as [_ [_ H3]].
  split; [exact H3|].
  unfold host_params. rewrite !length_app, !length_map. lia.
Qed.
(** ** The index modes *)

(** X3. A function indexed in one dimension gets the initializer
    [index1_t index = { .i = base + i };], also when it is marked as indexed
    in two dimensions as well; the field is the [size_t] sum of the base and
    the loop index.  A function that is not indexed gets no initializer and
    no index argument, and the initializer is empty only then. *)
Theorem index_initializer_by_mode :
  forall (UserType : Type) (cg : CodeGen UserType)
         (mapFunc : UserFunction.t UserType),
    (indexed1D mapFunc = true ->
     indexInitializer (collect cg mapFunc) = print_decl index1_decl
     /\ print_decl index1_decl = "index1_t index = { .i = base + i };")
    /\ (indexed1D mapFunc = false -> indexed2D mapFunc = false ->
        indexInitializer (collect cg mapFunc) = ""
        /\ SSMapFuncParams (collect cg mapFunc)
           = String.concat ", "
               (elwise_accesses (Varity mapFunc) 0 (elwiseParams mapFunc)
                ++ map (fun p : UserFunction.RandomAccessParam => name p)
                     (anyContainerParams mapFunc)
                ++ map name (anyScalarParams mapFunc)))
    /\ (indexInitializer (collect cg mapFunc) = ""
        <-> indexed1D mapFunc || indexed2D mapFunc = false)
    /\ (forall w base i : Z,
          eval_fields (kernel_env w base i) (index_fields index1_decl)
          = Some [("i", ((base + i) mod size_t_modulus)%Z)]).
Proof.
  intros UserType cg mapFunc.
  pose proof (indexInitializer_collect cg mapFunc) as Hi.
  split; [|split; [|split]].
  - intros H1. rewrite Hi, H1. split; reflexivity.
  - intros H1 H2. rewrite Hi, H1, H2. split; [reflexivity|].
    rewrite collect_call_arguments. unfold call_arguments.
    now rewrite H1, H2.
  - rewrite Hi.
    destruct (indexed1D mapFunc), (indexed2D mapFunc); simpl;
      split; intros H; try reflexivity; discriminate H.
  - intros w base i. reflexivity.
Qed.

Lemma index_initializer_by_mode_witness :
  indexInitializer
    (collect example_codegen
       (UserFunction.mk "f" "float" true true false 1%N
          [mkParam "a" "float"] [] [] []))
  = "index1_t index = { .i = base + i };"
  /\ SSMapFuncParams (collect example_codegen (example_function "f"))
     = "a[i / Hsize], b[i % Hsize]".
Proof.
  split.
  - destruct (index_initializer_by_mode unit example_codegen
                (UserFunction.mk "f" "float" true true false 1%N
                   [mkParam "a" "float"] [] [] [])) as [H _].
    destruct (H eq_refl) as [H1 H2]. now rewrite H1.
  - destruct (index_initializer_by_mode unit example_codegen
                (example_function "f")) as [_ [H _]].
    destruct (H eq_refl eq_refl) as [_ H2]. rewrite H2. reflexivity.
Defined.

(** ** The file written *)

Lemma append_inv_tail (a b s : string) : a +++ s = b +++ s -> a = b.
Proof.
  intros E. apply (f_equal list_ascii_of_string) in E.
  rewrite !list_ascii_of_append in E. apply app_inv_tail in E.
  now apply list_ascii_of_string_inj.
Qed.

Lemma ofstream_write_opens (fs : FileSystem) (path text : string) :
  can_open (ofstream_write fs path text) = can_open fs.
Proof. unfold ofstream_write. now destruct (can_open fs path). Qed.

Lemma ofstream_write_same (fs : FileSystem) (path text : string) :
  can_open fs path = true ->
  contents (ofstream_write fs path text) path = Some text.
Proof.
  intros H. unfold ofstream_write. rewrite H. simpl.
  now rewrite String.eqb_refl.
Qed.

Lemma ofstream_write_other (fs : FileSystem) (path text p : string) :
  p <> path -> contents (ofstream_write fs path text) p = contents fs p.
Proof.
  intros Hp. unfold ofstream_write.
  destruct (can_open fs path); [|reflexivity]. simpl.
  apply String.eqb_neq in Hp. now rewrite Hp.
Qed.

Lemma outputPath_inj (dir a b : string) :
  outputPath dir a = outputPath dir b -> a = b.
Proof.
  intros E.
  change (dir +++ "/" +++ a +++ "_cl_source.inl"
          = dir +++ "/" +++ b +++ "_cl_source.inl") in E.
  apply append_inv_head in E. apply (append_inv_head "/") in E.
  now apply append_inv_tail in E.
Qed.

(** X4. The call returns the kernel name whether or not the file could be
    opened.  When the file [dir/kernelName_cl_source.inl] can be opened it
    holds the artifact afterwards and no other file is touched; when it
    cannot, nothing is written and the call returns as if it had been.  In
    one run of the tool and one output directory, two instantiations with
    different unique names or different shapes leave both artifacts side by
    side, and two instantiations with the same unique name and shape leave
    only the second one. *)
Theorem output_files_distinct :
  forall (UserType : Type) (cg : CodeGen UserType) (ResultName dir : string)
         (consts1 consts2 : list (VarDecl * UserConstant.t))
         (f1 f2 : UserFunction.t UserType) (V1 H1 V2 H2 : N)
         (fs : FileSystem),
    let k1 := kernelName cg ResultName f1 V1 H1 in
    let k2 := kernelName cg ResultName f2 V2 H2 in
    let text1 := finalSource cg ResultName consts1 f1 V1 H1 in
    let text2 := finalSource cg ResultName consts2 f2 V2 H2 in
    let path1 := dir +++ "/" +++ k1 +++ "_cl_source.inl" in
    let path2 := dir +++ "/" +++ k2 +++ "_cl_source.inl" in
    let run1 := createMapPairsKernelProgram_CL cg ResultName consts1 f1 V1 H1
                  dir fs in
    let run2 := createMapPairsKernelProgram_CL cg ResultName consts2 f2 V2 H2
                  dir (snd run1) in
    fst run1 = k1 /\ fst run2 = k2
    /\ (can_open fs path1 = false -> snd run1 = fs)
    /\ (can_open fs path1 = true ->
        contents (snd run1) path1 = Some text1
        /\ forall p, p <> path1 -> contents (snd run1) p = contents fs p)
    /\ (can_open fs path1 = true -> can_open fs path2 = true ->
        uniqueName f1 <> uniqueName f2 \/ (V1, H1) <> (V2, H2) ->
        contents (snd run2) path1 = Some text1
        /\ contents (snd run2) path2 = Some text2)
    /\ (can_open fs path2 = true ->
        uniqueName f1 = uniqueName f2 -> (V1, H1) = (V2, H2) ->
        path1 = path2 /\ contents (snd run2) path1 = Some text2).
Proof.
  intros UserType cg ResultName dir consts1 consts2 f1 f2 V1 H1 V2 H2 fs
    k1 k2 text1 text2 path1 path2 run1 run2.
  change path1 with (outputPath dir k1). change path2 with (outputPath dir k2).
  assert (E1 : snd run1 = ofstream_write fs (outputPath dir k1) text1)
    by reflexivity.
  assert (E2 : snd run2
               = ofstream_write (snd run1) (outputPath dir k2) text2)
    by reflexivity.
  split; [reflexivity|]. split; [reflexivity|].
  split; [|split; [|split]].
  - intros Hno. rewrite E1. unfold ofstream_write. now rewrite Hno.
  - intros Hyes. rewrite E1. split.
    + now apply ofstream_write_same.
    + intros p Hp. now apply ofstream_write_other.
  - intros Hyes1 Hyes2 Hdiff.
    assert (Hpaths : outputPath dir k1 <> outputPath dir k2).
    { intros E. apply outputPath_inj in E. apply kernelName_inj in E.
      destruct E as [Eu [EV EH]].
      destruct Hdiff as [Hu | Hs]; [now apply Hu|]. apply Hs. now subst. }
    rewrite E2. split.
    + rewrite ofstream_write_other by assumption.
      rewrite E1. now apply ofstream_write_same.
    + apply ofstream_write_same.
      rewrite E1, ofstream_write_opens. assumption.
  - intros Hyes2 Eu Es. injection Es as EV EH.
    assert (Ek : k1 = k2).
    { subst k1 k2. unfold kernelName. now rewrite Eu, EV, EH. }
    rewrite Ek. split; [reflexivity|].
    rewrite E2. apply ofstream_write_same.
    rewrite E1, ofstream_write_opens. assumption.
Qed.

Lemma output_files_distinct_witness :
  let run1 := createMapPairsKernelProgram_CL example_codegen "prog" []
                (example_function "f") 1 1 "out" empty_writable in
  let run2 := createMapPairsKernelProgram_CL example_codegen "prog" []
                (example_function "f") 1 2 "out" (snd run1) in
  contents (snd run2) "out/prog_MapPairsKernel_f_Varity_1_Harity_1_cl_source.inl"
  = Some (finalSource example_codegen "prog" [] (example_function "f") 1 1)
  /\ contents (snd run2)
       "out/prog_MapPairsKernel_f_Varity_1_Harity_2_cl_source.inl"
     = Some (finalSource example_codegen "prog" [] (example_function "f") 1 2).
Proof.
  destruct (output_files_distinct unit example_codegen "prog" "out" [] []
              (example_function "f") (example_function "f") 1 1 1 2
              empty_writable) as [_ [_ [_ [_ [H _]]]]].
  apply H; [reflexivity | reflexivity |].
  right. intros E. inversion E.
Defined.
(** ** The order of the proxy definitions *)

Lemma sorted_lists_equal (l1 : list string) :
  forall l2, StronglySorted string_lt l1 -> StronglySorted string_lt l2 ->
    (forall x, In x l1 <-> In x l2) -> l1 = l2.
Proof.
  induction l1 as [|a l1 IH]; intros [|b l2] H1 H2 Hin.
  - reflexivity.
  - exfalso. apply (proj2 (Hin b)). now left.
  - exfalso. apply (proj1 (Hin a)). now left.
  - inversion H1 as [|? ? S1 F1]; subst. inversion H2 as [|? ? S2 F2]; subst.
    rewrite Forall_forall in F1, F2.
    assert (Eab : a = b).
    { destruct (proj1 (Hin a) (or_introl eq_refl)) as [E | Ha]; [now symmetry|].
      destruct (proj2 (Hin b) (or_introl eq_refl)) as [E | Hb]; [exact E|].
      exfalso. apply (string_lt_irrefl a).
      apply (string_lt_trans a b a); [now apply F1 | now apply F2]. }
    subst b. f_equal. apply IH; try assumption.
    intros x. split; intros Hx.
    + destruct (proj1 (Hin x) (or_intror Hx)) as [E | Hx2]; [|exact Hx2].
      subst x. exfalso. exact (string_lt_irrefl a (F1 a Hx)).
    + destruct (proj2 (Hin x) (or_intror Hx)) as [E | Hx1]; [|exact Hx1].
      subst x. exfalso. exact (string_lt_irrefl a (F2 a Hx)).
Qed.

Lemma proxy_types_of_permutation {UserType} (cg : CodeGen UserType)
  (f1 f2 : UserFunction.t UserType) :
  Permutation (anyContainerParams f1) (anyContainerParams f2) ->
  forall k, containerProxyTypes (collect cg f1) k
            = containerProxyTypes (collect cg f2) k.
Proof.
  intros Hperm k.
  destruct (types_collect cg f1 k) as [S1 I1].
  destruct (types_collect cg f2 k) as [S2 I2].
  apply sorted_lists_equal; try assumption.
  intros t. rewrite I1, I2.
  split; apply Permutation_in; [|apply Permutation_sym];
    now apply Permutation_map.
Qed.

(** X5. The proxy definitions are written kind by kind, in the order
    vector, matrix, sparse matrix, matrix row, tensor3, tensor4, and within
    a kind by increasing element type name.  The order in which the
    container parameters are declared does not matter: two functions whose
    container parameters are rearrangements of one another get the same
    proxy definitions, in the same order. *)
Theorem proxy_definitions_in_canonical_order :
  forall (UserType : Type) (cg : CodeGen UserType)
         (consts1 consts2 : list (VarDecl * UserConstant.t))
         (f1 f2 : UserFunction.t UserType),
    (emitted_proxy_keys (source_fragments cg consts1 f1)
     = flat_map
         (fun k => map (pair k) (containerProxyTypes (collect cg f1) k))
         [Vector; Matrix; SparseMatrix; MatRow; Tensor3; Tensor4]
     /\ forall k, StronglySorted string_lt
                    (containerProxyTypes (collect cg f1) k))
    /\ (Permutation (anyContainerParams f1) (anyContainerParams f2) ->
        emitted_proxy_keys (source_fragments cg consts1 f1)
        = emitted_proxy_keys (source_fragments cg consts2 f2)
        /\ proxy_definitions cg (containerProxyTypes (collect cg f1))
           = proxy_definitions cg (containerProxyTypes (collect cg f2))).
Proof.
  intros UserType cg consts1 consts2 f1 f2. split.
  - split; [apply emitted_source|].
    intros k. apply (types_collect cg f1 k).
  - intros Hperm.
    pose proof (proxy_types_of_permutation cg f1 f2 Hperm) as E.
    split.
    + rewrite !emitted_source. unfold all_kinds. cbn [flat_map].
      now rewrite !E.
    + unfold proxy_definitions, proxy_fragments. now rewrite !E.
Qed.

Lemma proxy_definitions_in_canonical_order_witness :
  let p1 := mkRandomAccessParam (mkParam "m" "int") Matrix in
  let p2 := mkRandomAccessParam (mkParam "v" "float") Vector in
  let p3 := mkRandomAccessParam (mkParam "u" "double") Vector in
  let f ps := UserFunction.mk "f" "float" false false false 1%N
                [mkParam "a" "float"; mkParam "b" "float"] ps [] ([] : list unit) in
  emitted_proxy_keys (source_fragments example_codegen [] (f [p1; p2; p3]))
  = emitted_proxy_keys (source_fragments example_codegen [] (f [p3; p1; p2]))
  /\ emitted_proxy_keys (source_fragments example_codegen [] (f [p1; p2; p3]))
     = [(Vector, "double"); (Vector, "float"); (Matrix, "int")].
Proof.
  intros p1 p2 p3 f. split; [|reflexivity].
  apply (proxy_definitions_in_canonical_order unit example_codegen [] []
           (f [p1; p2; p3]) (f [p3; p1; p2])).
  cbn [anyContainerParams f].
  apply Permutation_sym.
  apply (Permutation_cons_app [p1; p2] [] p3). now rewrite app_nil_r.
Defined.
(** ** The kernel table: store, load and launch *)

(** X6. A kernel stored in the table at an ordinal below eight is the one
    read back at that ordinal; the store changes no other entry and not the
    flag, and it returns the null handle.  A read at an ordinal of eight or
    more is outside the table, and a read before any store yields the null
    handle. *)
Theorem kernels_store_then_load :
  forall (st : Wrapper.Statics) (deviceID : nat) (kernel : Wrapper.cl_kernel),
    (List.length (Wrapper.arr st) = Wrapper.capacity ->
     (deviceID < Wrapper.capacity)%nat ->
     exists st',
       Wrapper.kernels st deviceID (Some kernel)
       = Wrapper.Returns (st', Wrapper.nullptr)
       /\ Wrapper.kernels st' deviceID None = Wrapper.Returns (st', kernel)
       /\ Wrapper.initialized st' = Wrapper.initialized st
       /\ List.length (Wrapper.arr st') = Wrapper.capacity
       /\ forall other, other <> deviceID ->
            Wrapper.kernels st' other None
            = match Wrapper.kernels st other None with
              | Wrapper.Returns (_, k) => Wrapper.Returns (st', k)
              | Wrapper.OutOfBounds => Wrapper.OutOfBounds
              | Wrapper.Stopped => Wrapper.Stopped
              end)
    /\ ((Wrapper.capacity <= deviceID)%nat ->
        Wrapper.kernels st deviceID None = Wrapper.OutOfBounds)
    /\ ((deviceID < Wrapper.capacity)%nat ->
        Wrapper.kernels Wrapper.at_program_start deviceID None
        = Wrapper.Returns (Wrapper.at_program_start, Wrapper.nullptr)).
Proof.
  intros st deviceID kernel. split; [|split].
  - intros Hlen Hid.
    exists (Wrapper.mkStatics (Wrapper.store (Wrapper.arr st) deviceID kernel)
              (Wrapper.initialized st)).
    unfold Wrapper.kernels.
    apply Nat.ltb_lt in Hid. rewrite Hid. apply Nat.ltb_lt in Hid.
    cbn [Wrapper.arr Wrapper.initialized].
    split; [reflexivity|]. split.
    { rewrite nth_store_same by lia. reflexivity. }
    split; [reflexivity|]. split; [now rewrite length_store|].
    intros other Hother.
    destruct (other <? Wrapper.capacity)%nat; [|reflexivity].
    now rewrite nth_store_other.
  - intros Hid. unfold Wrapper.kernels.
    destruct (deviceID <? Wrapper.capacity)%nat eqn:Hlt; [|reflexivity].
    apply Nat.ltb_lt in Hlt. lia.
  - intros Hid. unfold Wrapper.kernels.
    apply Nat.ltb_lt in Hid. rewrite Hid. apply Nat.ltb_lt in Hid.
    f_equal. f_equal. unfold Wrapper.at_program_start. cbn [Wrapper.arr].
    apply nth_repeat.
Qed.

Lemma kernels_store_then_load_witness :
  exists st',
    Wrapper.kernels Wrapper.at_program_start 3 (Some 42%Z)
    = Wrapper.Returns (st', Wrapper.nullptr)
    /\ Wrapper.kernels st' 3 None = Wrapper.Returns (st', 42%Z)
    /\ Wrapper.kernels Wrapper.at_program_start 8 None = Wrapper.OutOfBounds.
Proof.
  destruct (kernels_store_then_load Wrapper.at_program_start 3 42%Z)
    as [H _].
  destruct (H eq_refl ltac:(unfold Wrapper.capacity; lia))
    as [st' [H1 [H2 _]]].
  exists st'. split; [exact H1|]. split; [exact H2|].
  destruct (kernels_store_then_load Wrapper.at_program_start 8 0%Z)
    as [_ [H3 _]].
  apply H3. unfold Wrapper.capacity. lia.
Defined.

(** X7. After a first [initialize] with at most eight devices whose kernels
    all build, [map] called with the ordinal of a registered device binds
    and enqueues the kernel built for that device, on that device.  With an
    ordinal that is no registered device but below eight the device lookup
    fails; with an ordinal of eight or more the table is read outside its
    bounds before the lookup.  [map] does not call [initialize]: on the
    statics of program start it launches the null handle. *)
Theorem map_launches_the_kernel_of_the_device :
  forall (Device cl_program : Type)
         (buildProgram : Device -> string -> cl_program)
         (clCreateKernel : cl_program -> string -> Wrapper.cl_kernel * Z)
         (source kernel_name : string)
         (devices : list Device) (st st' : Wrapper.Statics),
    List.length (Wrapper.arr st) = Wrapper.capacity ->
    Wrapper.initialized st = false ->
    (List.length devices <= Wrapper.capacity)%nat ->
    (forall d, In d devices ->
       Wrapper.builds buildProgram clCreateKernel source kernel_name d) ->
    Wrapper.initialize buildProgram clCreateKernel source kernel_name
      devices st = Wrapper.Returns st' ->
    (forall deviceID d, nth_error devices deviceID = Some d ->
       let kernel :=
         fst (Wrapper.create buildProgram clCreateKernel source kernel_name d)
       in WrapperMap.map st' devices deviceID
          = WrapperMap.Enqueued kernel kernel d)
    /\ (forall deviceID,
          (List.length devices <= deviceID < Wrapper.capacity)%nat ->
          WrapperMap.map st' devices deviceID = WrapperMap.NoSuchDevice)
    /\ (forall deviceID, (Wrapper.capacity <= deviceID)%nat ->
          WrapperMap.map st' devices deviceID = WrapperMap.TableOutOfBounds)
    /\ (forall deviceID d, nth_error devices deviceID = Some d ->
          WrapperMap.map Wrapper.at_program_start devices deviceID
          = WrapperMap.Enqueued Wrapper.nullptr Wrapper.nullptr d).
Proof.
  intros Device cl_program buildProgram clCreateKernel source kernel_name
    devices st st' Hlen Hinit Hcap Hall Hrun.
  unfold Wrapper.initialize in Hrun. rewrite Hinit in Hrun.
  destruct (build_all_within Device cl_program buildProgram clCreateKernel
              source kernel_name devices 0 st Hlen ltac:(simpl; lia))
    as [_ Hok].
  destruct (Hok Hall) as [st1 [Hb [_ [Hl [Hnew _]]]]].
  rewrite Hb in Hrun. injection Hrun as <-.
  split; [|split; [|split]].
  - intros deviceID d Hd kernel.
    assert (Hlt : (deviceID < Wrapper.capacity)%nat).
    { assert (deviceID < List.length devices)%nat; [|lia].
      apply nth_error_Some. congruence. }
    unfold WrapperMap.map, Wrapper.kernels.
    apply Nat.ltb_lt in Hlt. rewrite Hlt, Hd. cbn [Wrapper.arr].
    subst kernel. pose proof (Hnew deviceID d Hd) as Hk.
    cbn [Nat.add] in Hk. now rewrite Hk.
  - intros deviceID [Hge Hlt].
    unfold WrapperMap.map, Wrapper.kernels.
    apply Nat.ltb_lt in Hlt. rewrite Hlt.
    now rewrite (proj2 (nth_error_None devices deviceID) Hge).
  - intros deviceID Hge. unfold WrapperMap.map, Wrapper.kernels.
    destruct (deviceID <? Wrapper.capacity)%nat eqn:Hlt; [|reflexivity].
    apply Nat.ltb_lt in Hlt. lia.
  - intros deviceID d Hd.
    assert (Hlt : (deviceID < Wrapper.capacity)%nat).
    { assert (deviceID < List.length devices)%nat; [|lia].
      apply nth_error_Some. congruence. }
    unfold WrapperMap.map, Wrapper.kernels.
    apply Nat.ltb_lt in Hlt. rewrite Hlt, Hd.
    unfold Wrapper.at_program_start. cbn [Wrapper.arr].
    now rewrite nth_repeat.
Qed.

Lemma map_launches_the_kernel_of_the_device_witness :
  WrapperMap.map
    (Wrapper.mkStatics [100; 101; 102; 0; 0; 0; 0; 0]%Z true)
    [0; 1; 2]%nat 1
  = WrapperMap.Enqueued 101%Z 101%Z 1%nat.
Proof.
  destruct (map_launches_the_kernel_of_the_device nat nat
              example_buildProgram example_clCreateKernel "" "k"
              [0; 1; 2]%nat Wrapper.at_program_start
              (Wrapper.mkStatics [100; 101; 102; 0; 0; 0; 0; 0]%Z true)
              eq_refl eq_refl ltac:(unfold Wrapper.capacity; simpl; lia)
              ltac:(intros d _; reflexivity) eq_refl) as [H _].
  exact (H 1%nat 1%nat eq_refl).
Defined.
(** ** The work of one worker *)

Section StrideFacts.

Variable modulus : Z.
Variables n gridSize : Z.
Hypothesis gridSize_pos : (0 < gridSize)%Z.
Hypothesis no_wrap : (n + gridSize <= modulus)%Z.

Lemma stride_indices_step (i : Z) :
  (0 <= i < n)%Z ->
  stride_indices n gridSize i = i :: stride_indices n gridSize (i + gridSize).
Proof.
  intros Hi. unfold stride_indices, stride_count.
  replace (n - i + gridSize - 1)%Z
    with ((n - (i + gridSize) + gridSize - 1) + 1 * gridSize)%Z by lia.
  rewrite Z.div_add by lia.
  assert (Hq : (0 <= (n - (i + gridSize) + gridSize - 1) / gridSize)%Z)
    by (apply Z.div_pos; lia).
  rewrite Z2Nat.inj_add by lia.
  change (Z.to_nat 1) with 1%nat. rewrite Nat.add_1_r.
  cbn [seq map]. f_equal; [lia|].
  rewrite <- seq_shift, map_map. apply map_ext. intros k. lia.
Qed.

Lemma stride_indices_done (i : Z) :
  (n <= i)%Z -> stride_indices n gridSize i = [].
Proof.
  intros Hi. unfold stride_indices, stride_count.
  assert (Hq : ((n - i + gridSize - 1) / gridSize < 1)%Z)
    by (apply Z.div_lt_upper_bound; lia).
  replace (Z.to_nat ((n - i + gridSize - 1) / gridSize)) with 0%nat by lia.
  reflexivity.
Qed.

Lemma worker_loop_indices (fuel : nat) :
  forall i, (0 <= i)%Z -> (Z.to_nat (n - i) < fuel)%nat ->
    worker_loop modulus n gridSize fuel i
    = Some (stride_indices n gridSize i).
Proof.
  induction fuel as [|fuel IH]; intros i Hi Hfuel; [lia|]. simpl.
  destruct (i <? n)%Z eqn:Hlt.
  - apply Z.ltb_lt in Hlt.
    rewrite (Z.mod_small (i + gridSize) modulus) by lia.
    rewrite IH by lia. simpl. now rewrite (stride_indices_step i).
  - apply Z.ltb_ge in Hlt. now rewrite stride_indices_done.
Qed.

Lemma stride_count_balanced (g g' : Z) :
  (g <= g' < g + gridSize)%Z ->
  (stride_count n gridSize g' <= stride_count n gridSize g
   <= stride_count n gridSize g' + 1)%nat.
Proof.
  intros Hg. unfold stride_count.
  assert (H1 : ((n - g' + gridSize - 1) / gridSize
                <= (n - g + gridSize - 1) / gridSize)%Z)
    by (apply Z.div_le_mono; lia).
  assert (H2 : ((n - g + gridSize - 1) / gridSize
                <= (n - g' + gridSize - 1 + 1 * gridSize) / gridSize)%Z)
    by (apply Z.div_le_mono; lia).
  rewrite Z.div_add in H2 by lia. lia.
Qed.

End StrideFacts.

Lemma nth_map_seq (f : nat -> Z) (c k : nat) (d : Z) :
  (k < c)%nat -> nth k (map f (seq 0 c)) d = f k.
Proof.
  intros Hk.
  rewrite (nth_indep _ d (f 0%nat)) by (now rewrite length_map, length_seq).
  rewrite (map_nth f (seq 0 c) 0%nat k). now rewrite seq_nth.
Qed.

(** X8. Without wrap-around, worker [g] runs the body at the indices
    [g, g + W, g + 2 W, ...] below [n], in increasing order, so
    [ceil ((n - g) / W)] times, and not at all when [n <= g]; the numbers of
    iterations of any two workers differ by at most one. *)
Theorem worker_visits_in_stride_order :
  forall modulus n W : Z,
    (0 <= n)%Z -> (0 < W)%Z -> (n + W <= modulus)%Z ->
    forall g, (0 <= g < W)%Z ->
      visits modulus n W g (stride_indices n W g)
      /\ List.length (stride_indices n W g)
         = Z.to_nat ((n - g + W - 1) / W)
      /\ (forall k, (k < List.length (stride_indices n W g))%nat ->
            nth k (stride_indices n W g) 0%Z = (g + Z.of_nat k * W)%Z)
      /\ ((n <= g)%Z -> stride_indices n W g = [])
      /\ (forall g', (g <= g' < W)%Z ->
            (List.length (stride_indices n W g')
             <= List.length (stride_indices n W g)
             <= List.length (stride_indices n W g') + 1)%nat).
Proof.
  intros modulus n W Hn HW Hno g Hg.
  split; [|split; [|split; [|split]]].
  - exists (S (Z.to_nat (n - g))).
    apply worker_loop_indices; try assumption; lia.
  - unfold stride_indices. now rewrite length_map, length_seq.
  - intros k Hk. unfold stride_indices in *.
    rewrite length_map, length_seq in Hk.
    now rewrite nth_map_seq.
  - intros Hge. now apply stride_indices_done.
  - intros g' Hg'. unfold stride_indices.
    rewrite !length_map, !length_seq.
    apply stride_count_balanced; lia.
Qed.

Lemma worker_visits_in_stride_order_witness :
  visits size_t_modulus 10 4 1 [1; 5; 9]%Z
  /\ visits size_t_modulus 10 4 3 [3; 7]%Z.
Proof.
  split.
  - apply (worker_visits_in_stride_order size_t_modulus 10 4);
      unfold size_t_modulus; lia.
  - apply (worker_visits_in_stride_order size_t_modulus 10 4);
      unfold size_t_modulus; lia.
Defined.

(** ** The element accesses *)

(** X9. An elementwise parameter is passed as [name[i / Hsize]] when it is
    vertical and as [name[i % Hsize]] when it is horizontal.  For a
    horizontal size other than zero, the two subscripts take the indices
    below [Vsize * Hsize] one to one onto the pairs of a vertical position
    below [Vsize] and a horizontal position below [Hsize], row by row:
    index [v * Hsize + h] reads the pair [(v, h)].  With a horizontal size of
    zero the subscripts have no value. *)
Theorem element_accesses_enumerate_pairs :
  (forall (UserType : Type) (mapFunc : UserFunction.t UserType)
          (st : Streams) (p : UserFunction.Param),
      SSMapFuncParams (elwise_step mapFunc st p)
      = SSMapFuncParams (separator st) +++ name p +++ "["
        +++ print_expr (if (ctr st <? Varity mapFunc)%N
                        then vertical_access else horizontal_access)
        +++ "]")
  /\ (forall Vsize Hsize i : Z,
        (0 < Hsize)%Z -> (0 <= i < Vsize * Hsize)%Z ->
        exists v h,
          eval_expr (access_env Hsize i) vertical_access = Some v
          /\ eval_expr (access_env Hsize i) horizontal_access = Some h
          /\ (0 <= v < Vsize)%Z /\ (0 <= h < Hsize)%Z
          /\ i = (v * Hsize + h)%Z)
  /\ (forall Vsize Hsize v h : Z,
        (0 <= v < Vsize)%Z -> (0 <= h < Hsize)%Z ->
        (0 <= v * Hsize + h < Vsize * Hsize)%Z
        /\ eval_expr (access_env Hsize (v * Hsize + h)) vertical_access
           = Some v
        /\ eval_expr (access_env Hsize (v * Hsize + h)) horizontal_access
           = Some h)
  /\ (forall i : Z,
        eval_expr (access_env 0 i) vertical_access = None
        /\ eval_expr (access_env 0 i) horizontal_access = None).
Proof.
  split; [|split; [|split]].
  - intros UserType mapFunc st p. unfold elwise_step. cbn.
    rewrite ctr_separator.
    destruct (ctr st <? Varity mapFunc)%N; reflexivity.
  - intros Vsize Hsize i HH Hi.
    exists (i / Hsize)%Z, (i mod Hsize)%Z.
    assert (Hne : (Hsize =? 0)%Z = false) by (apply Z.eqb_neq; lia).
    cbn. rewrite Hne.
    pose proof (Z.mod_pos_bound i Hsize HH).
    pose proof (Z.div_mod i Hsize ltac:(lia)).
    split; [reflexivity|]. split; [reflexivity|].
    split; [|split; [assumption | lia]].
    split; [apply Z.div_pos; lia|].
    apply Z.div_lt_upper_bound; lia.
  - intros Vsize Hsize v h Hv Hh.
    assert (Hne : (Hsize =? 0)%Z = false) by (apply Z.eqb_neq; lia).
    split; [nia|]. cbn. rewrite Hne.
    split; f_equal.
    + rewrite Z.div_add_l by lia. rewrite Z.div_small by lia. lia.
    + rewrite Z.add_comm, Z.mod_add by lia. apply Z.mod_small. lia.
  - intros i. split; reflexivity.
Qed.

Lemma element_accesses_enumerate_pairs_witness :
  eval_expr (access_env 4 9) vertical_access = Some 2%Z
  /\ eval_expr (access_env 4 9) horizontal_access = Some 1%Z.
Proof.
  destruct element_accesses_enumerate_pairs as [_ [_ [H _]]].
  destruct (H 3%Z 4%Z 2%Z 1%Z ltac:(lia) ltac:(lia)) as [_ [H1 H2]].
  split; [exact H1 | exact H2].
Defined.
(** ** The driver *)

Section DriverFacts.

Import Driver.

Lemma spaceless_snoc (w : string) (c : ascii) :
  spaceless w -> isspace c = false -> spaceless (w +++ String c "").
Proof.
  unfold spaceless. intros Hw Hc. rewrite list_ascii_of_append.
  apply Forall_app. split; [exact Hw|]. simpl. now constructor.
Qed.

Lemma snoc_not_empty (w : string) (c : ascii) : w +++ String c "" <> "".
Proof. destruct w; discriminate. Qed.

Lemma read_words_are_words (s : string) :
  forall word, spaceless word -> Forall is_word (read_words word s).
Proof.
  induction s as [|c s IH]; intros word Hw; simpl.
  - destruct word; [constructor|].
    constructor; [|constructor]. split; [discriminate | exact Hw].
  - destruct (isspace c) eqn:Hc.
    + destruct word.
      * apply IH. constructor.
      * constructor; [split; [discriminate | exact Hw]|].
        apply IH. constructor.
    + apply IH. now apply spaceless_snoc.
Qed.

Lemma read_words_through_word (w : string) :
  forall word rest, spaceless w ->
    read_words word (w +++ rest) = read_words (word +++ w) rest.
Proof.
  induction w as [|c w IH]; intros word rest Hw.
  - simpl. now rewrite append_nil_r.
  - inversion Hw as [|? ? Hc Hw']; subst. simpl. rewrite Hc.
    rewrite IH by exact Hw'. now rewrite append_assoc.
Qed.

Lemma read_words_joined (names : list string) :
  Forall is_word names ->
  read_words "" (String.concat " " names) = names.
Proof.
  induction names as [|w names IH]; intros H; [reflexivity|].
  inversion H as [|? ? [Hne Hw] Hrest]; subst.
  destruct names as [|w2 names].
  - simpl. rewrite <- (append_nil_r w) at 1.
    rewrite read_words_through_word by exact Hw. simpl.
    destruct w; [contradiction | reflexivity].
  - change (String.concat " " (w :: w2 :: names))
      with (w +++ " " +++ String.concat " " (w2 :: names)).
    rewrite read_words_through_word by exact Hw.
    change ("" +++ w) with w.
    change (" " +++ String.concat " " (w2 :: names))
      with (String " " (String.concat " " (w2 :: names))).
    cbn [read_words]. change (isspace " ") with true. cbv iota.
    rewrite (IH Hrest). destruct w; [contradiction | reflexivity].
Qed.

Lemma read_words_of_spaces (s : string) :
  Forall (fun c => isspace c = true) (list_ascii_of_string s) ->
  read_words "" s = [].
Proof.
  induction s as [|c s IH]; intros H; [reflexivity|].
  inversion H as [|? ? Hc Hs]; subst. simpl. rewrite Hc. now apply IH.
Qed.

Lemma In_insert (name x : string) (set : list string) :
  In x (insert name set) <-> x = name \/ In x set.
Proof.
  unfold insert. destruct (in_dec string_dec name set) as [Hin | Hnot].
  - split; [now right|]. intros [-> | H]; assumption.
  - simpl. split; intros [H | H]; auto.
Qed.

Lemma NoDup_insert (name : string) (set : list string) :
  NoDup set -> NoDup (insert name set).
Proof.
  intros H. unfold insert.
  destruct (in_dec string_dec name set); [exact H | now constructor].
Qed.

Lemma insert_all (names : list string) :
  forall set,
    (forall x, In x (fold_left (fun s n => insert n s) names set)
               <-> In x set \/ In x names)
    /\ (NoDup set -> NoDup (fold_left (fun s n => insert n s) names set)).
Proof.
  induction names as [|n names IH]; intros set; simpl.
  - split; [intros x; tauto | auto].
  - destruct (IH (insert n set)) as [Hin Hnd]. split.
    + intros x. rewrite Hin, In_insert. intuition.
    + intros H. apply Hnd. now apply NoDup_insert.
Qed.

Lemma builtin_names_distinct : NoDup AllowedFunctionNamesCalledInUFs.
Proof.
  assert (E : nodup string_dec AllowedFunctionNamesCalledInUFs
              = AllowedFunctionNamesCalledInUFs) by (vm_compute; reflexivity).
  rewrite <- E. apply NoDup_nodup.
Qed.

End DriverFacts.

(** X10. The option [-fnames] is read word by word: every name taken from
    it is non-empty and free of white space, a value made of white space
    only yields no name, and names that are themselves words, written with
    one space between them, are read back exactly, in order. *)
Theorem fnames_read_word_by_word :
  (forall s : string, Forall Driver.is_word (Driver.Names s))
  /\ (forall names : list string,
        Forall Driver.is_word names ->
        Driver.Names (String.concat " " names) = names)
  /\ (forall s : string,
        Forall (fun c => Driver.isspace c = true) (list_ascii_of_string s) ->
        Driver.Names s = []).
Proof.
  split; [|split].
  - intros s. apply read_words_are_words. constructor.
  - apply read_words_joined.
  - apply read_words_of_spaces.
Qed.

Lemma fnames_read_word_by_word_witness :
  Driver.Names "conj csqrt" = ["conj"; "csqrt"]
  /\ Driver.Names (String " " (String (ascii_of_nat 9) "")) = [].
Proof.
  destruct fnames_read_word_by_word as [_ [H1 H2]]. split.
  - apply (H1 ["conj"; "csqrt"]).
    repeat constructor; try discriminate.
  - apply H2. repeat constructor.
Defined.

(** X11. After [main] has read the option, a function name is allowed
    exactly when it is one of the built-in names or one of the names of the
    option; no built-in name is lost, no name is held twice, and a name
    that is empty or contains white space is allowed only if it is built
    in. *)
Theorem allowed_names_after_main :
  forall (opts : Driver.Options) (x : string),
    (In x (Driver.allowed_names opts)
     <-> In x Driver.AllowedFunctionNamesCalledInUFs
         \/ In x (Driver.Names (Driver.AllowedFuncNames opts)))
    /\ NoDup (Driver.allowed_names opts)
    /\ (In x (Driver.allowed_names opts) ->
        In x Driver.AllowedFunctionNamesCalledInUFs \/ Driver.is_word x).
Proof.
  intros opts x. unfold Driver.allowed_names.
  destruct (insert_all (Driver.Names (Driver.AllowedFuncNames opts))
              Driver.AllowedFunctionNamesCalledInUFs) as [Hin Hnd].
  split; [apply Hin|]. split; [apply Hnd, builtin_names_distinct|].
  intros H. apply Hin in H. destruct H as [H | H]; [now left | right].
  pose proof (read_words_are_words (Driver.AllowedFuncNames opts) ""
                ltac:(constructor)) as Hw.
  rewrite Forall_forall in Hw. now apply Hw.
Qed.

(** X12. The banner of [main] goes through the log, which discards what it
    is sent unless [-verbose] is given: the tool writes the banner exactly
    when [-verbose] is given and [-silent] is not, and nothing otherwise.
    The banner names the main output file, which is the output directory,
    a slash, the output name and the extension [.cu] for CUDA and [.cpp]
    otherwise, or no extension when the extension is overridden. *)
Theorem banner_written_only_when_verbose :
  forall (opts : Driver.Options) (name : string),
    (Driver.banner opts (Driver.mainFileName opts name) = ""
     <-> Driver.Silent opts = true \/ Driver.Verbose opts = false)
    /\ (Driver.Verbose opts = true -> Driver.Silent opts = false ->
        Driver.banner opts (Driver.mainFileName opts name)
        = str ["# ======================================= #"; newline;
               "~   SkePU source-to-source compiler v3    ~"; newline;
               "# --------------------------------------- #"; newline;
               "   OpenMP gen:       "; Driver.on_off (Driver.GenOMP opts);
               newline;
               "   CUDA gen:         "; Driver.on_off (Driver.GenCUDA opts);
               newline;
               "   OpenCL gen:       "; Driver.on_off (Driver.GenCL opts);
               newline;
               "   StarPU-MPI gen:   ";
               Driver.on_off (Driver.GenStarPUMPI opts); newline;
               "   Main output file: "; Driver.ResultDir opts; "/"; name;
               (if Driver.NoAddExtension opts then ""
                else if Driver.GenCUDA opts then ".cu" else ".cpp");
               newline;
               "# ======================================= #"; newline]).
Proof.
  intros opts name. unfold Driver.banner, Driver.SkePULog. split.
  - destruct (Driver.Silent opts), (Driver.Verbose opts); simpl; split;
      intros H; auto; try discriminate H;
      destruct H as [H | H]; discriminate H.
  - intros -> ->. unfold Driver.mainFileName, Driver.on_off, str, newline.
    destruct (Driver.GenOMP opts), (Driver.GenCUDA opts),
      (Driver.GenCL opts), (Driver.GenStarPUMPI opts),
      (Driver.NoAddExtension opts);
      simpl; rewrite ?append_assoc; simpl; rewrite ?append_assoc; simpl;
      rewrite ?append_nil_r; reflexivity.
Qed.

Lemma banner_written_only_when_verbose_witness :
  let opts := Driver.mkOptions "out" "prog" false false true false false
                true false false false "" in
  Driver.banner opts (Driver.mainFileName opts "prog")
  = str ["# ======================================= #"; newline;
         "~   SkePU source-to-source compiler v3    ~"; newline;
         "# --------------------------------------- #"; newline;
         "   OpenMP gen:       OFF"; newline;
         "   CUDA gen:         OFF"; newline;
         "   OpenCL gen:       ON"; newline;
         "   StarPU-MPI gen:   OFF"; newline;
         "   Main output file: out/prog.cpp"; newline;
         "# ======================================= #"; newline].
Proof.
  intros opts.
  destruct (banner_written_only_when_verbose opts "prog") as [_ H].
  rewrite (H eq_refl eq_refl). reflexivity.
Defined.
